(** * KToolBox: post naming, time-window filtering, index diffing, JSON hashing

    A shallow embedding of [ktoolbox/action/utils.py] and of the part of
    [ktoolbox/configuration.py] it reads, followed by the properties that
    were checked against it.

    Python values are modelled as follows.
    - An exception is a value of [exn]; a computation that may raise
      returns a [result].
    - A naive [datetime] is the record of its calendar fields; Python
      orders naive datetimes field by field, most significant first.
    - A [str] is a Rocq [string]; each character stands for the code point
      of the same number (0 to 255).
    - [str.format] is modelled as CPython reads a template; what it asks
      of the objects it meets on the way ([getattr], items, [repr],
      [format] with a specification) is a parameter, [object_model], and
      every statement about the path namer holds for all of them.
    - [CreatorIndices] objects live in a heap and are passed by reference,
      so that in-place updates and copies can be told apart.
    - The JSON value handed to [json_hash] is a tree whose containers are
      each referenced once; the function returns, next to the digest, the
      content the argument has after the call. *)

From Stdlib Require Import ZArith List String Ascii Lia Bool Permutation.
From stdpp Require Import base option gmap strings list pretty.
Import ListNotations.
Local Open Scope Z_scope.
#[local] Set Warnings "-register-all".

(* ===================================================================== *)
(** * Part I: the model                                                   *)
(* ===================================================================== *)

(** ** Exceptions and results *)

Inductive exn : Type :=
| TypeError (msg : string)
| AttributeError (type_name attr : string)
| KeyError (key : string)
| IndexError (msg : string)
| ValueError (msg : string)
| SystemExit (status : Z)
| InvalidReference.         (* a reference to no object: not a state of Python *)

Inductive result (A : Type) : Type :=
| Ok (a : A)
| Raise (e : exn).
Arguments Ok {A} a.
Arguments Raise {A} e.

#[export] Instance result_ret : MRet result := fun A a => Ok a.
#[export] Instance result_bind : MBind result := fun A B f m =>
  match m with
  | Ok a => f a
  | Raise e => Raise e
  end.
#[export] Instance result_fmap : FMap result := fun A B f m =>
  match m with
  | Ok a => Ok (f a)
  | Raise e => Raise e
  end.

(** [list(filter(f, l))] for a predicate that may raise: elements are
    tested from left to right and the first exception ends everything. *)
Fixpoint py_filter {A : Type} (f : A -> result bool) (l : list A) : result (list A) :=
  match l with
  | [] => Ok []
  | x :: rest =>
      match f x with
      | Raise e => Raise e
      | Ok keep =>
          match py_filter f rest with
          | Raise e => Raise e
          | Ok ys => Ok (if keep then x :: ys else ys)
          end
      end
  end.

(** ** Naive datetimes *)

Record datetime : Type := mkdatetime {
  year : Z; month : Z; day : Z;
  hour : Z; minute : Z; second : Z; microsecond : Z
}.

Definition dt_fields (d : datetime) : list Z :=
  [year d; month d; day d; hour d; minute d; second d; microsecond d].

Fixpoint lex_compare (a b : list Z) : comparison :=
  match a, b with
  | [], [] => Eq
  | [], _ :: _ => Lt
  | _ :: _, [] => Gt
  | x :: a', y :: b' =>
      match Z.compare x y with
      | Eq => lex_compare a' b'
      | c => c
      end
  end.

Definition dt_compare (a b : datetime) : comparison :=
  lex_compare (dt_fields a) (dt_fields b).

(** [a < b], [a > b], [a <= b], [a >= b] on two datetimes. *)
Definition dt_ltb (a b : datetime) : bool :=
  match dt_compare a b with Lt => true | _ => false end.
Definition dt_gtb (a b : datetime) : bool :=
  match dt_compare a b with Gt => true | _ => false end.
Definition dt_leb (a b : datetime) : bool :=
  match dt_compare a b with Gt => false | _ => true end.
Definition dt_geb (a b : datetime) : bool :=
  match dt_compare a b with Lt => false | _ => true end.

Definition lt_not_supported (l r : string) : exn :=
  TypeError ("'<' not supported between instances of '" +:+ l +:+ "' and '" +:+ r +:+ "'").
Definition gt_not_supported (l r : string) : exn :=
  TypeError ("'>' not supported between instances of '" +:+ l +:+ "' and '" +:+ r +:+ "'").

Definition type_name_opt_dt (a : option datetime) : string :=
  match a with Some _ => "datetime.datetime" | None => "NoneType" end.

(** [a < b] and [a > b] where either side may be [None]: Python has no
    order between [None] and a datetime, nor between [None] and [None]. *)
Definition py_lt_dt (a b : option datetime) : result bool :=
  match a, b with
  | Some x, Some y => Ok (dt_ltb x y)
  | _, _ => Raise (lt_not_supported (type_name_opt_dt a) (type_name_opt_dt b))
  end.
Definition py_gt_dt (a b : option datetime) : result bool :=
  match a, b with
  | Some x, Some y => Ok (dt_gtb x y)
  | _, _ => Raise (gt_not_supported (type_name_opt_dt a) (type_name_opt_dt b))
  end.

(** ** Posts *)

(** Modelled from the spec: the [Post] class of [ktoolbox.api.model] is not
    part of the sources at hand. The spec's PostRecord has a string [id],
    [user], [service], a [title] that may be empty, and three optional
    timestamps. *)
Record Post : Type := mkPost {
  id : string;
  user : string;
  service : string;
  title : string;
  added : option datetime;
  published : option datetime;
  edited : option datetime
}.

#[export] Instance datetime_eq_dec : EqDecision datetime.
Proof. solve_decision. Defined.
#[export] Instance Post_eq_dec : EqDecision Post.
Proof. solve_decision. Defined.

(** ** Time window filter *)

(** [_match_post_time]: [if start_time and post.published < start_time]
    evaluates the comparison only when [start_time] is not [None] (a
    datetime is always truthy); likewise for [end_time]. *)
Definition _match_post_time (post : Post) (start_time end_time : option datetime)
  : result bool :=
  below ← match start_time with
          | None => Ok false
          | Some _ => py_lt_dt (published post) start_time
          end;
  if (below : bool) then Ok false
  else
    above ← match end_time with
            | None => Ok false
            | Some _ => py_gt_dt (published post) end_time
            end;
    if (above : bool) then Ok false else Ok true.

(** [filter_posts_by_time] is a generator. Run to its end it has yielded a
    list of posts and has either finished or been stopped by an exception;
    the posts yielded before the exception were already handed out. *)
Fixpoint filter_posts_by_time (post_list : list Post)
    (start_time end_time : option datetime) : list Post * option exn :=
  match post_list with
  | [] => ([], None)
  | x :: rest =>
      match _match_post_time x start_time end_time with
      | Raise e => ([], Some e)
      | Ok keep =>
          let '(ys, stop) := filter_posts_by_time rest start_time end_time in
          (if keep then x :: ys else ys, stop)
      end
  end.

(** ** Indices differ *)

(** Modelled from the spec: the [CreatorIndices] class of [ktoolbox.job] is
    not part of the sources at hand. The code reads and writes its [posts]
    dictionary, from post id to [Post]; the creator it belongs to is a
    (service, user id) pair. *)
Record CreatorIndices : Type := mkCreatorIndices {
  creator_id : string;
  creator_service : string;
  posts : gmap string Post
}.

Definition loc : Type := positive.

(** The heap of [CreatorIndices] objects. *)
Abbreviation heap := (gmap loc CreatorIndices).

(** [obj.posts[key] = post] on the object at [r]. *)
Definition posts_setitem (r : loc) (key : string) (post : Post) (h : heap) : heap :=
  alter (fun ci => mkCreatorIndices (creator_id ci) (creator_service ci)
                     (<[key := post]> (posts ci))) r h.

(** [obj.model_copy(deep=True)]: a new object, equal to the old one and
    sharing nothing with it. *)
Definition model_copy_deep (r : loc) (h : heap) : option (loc * heap) :=
  ci ← h !! r;
  let r' := fresh (dom h) in
  Some (r', <[r' := ci]> h).

(** The lambda of the filter:
    [x.id not in indices.posts or x.edited > indices.posts[x.id].edited]. *)
Definition edited_after_index (index_posts : gmap string Post) (x : Post) : result bool :=
  match index_posts !! id x with
  | None => Ok true
  | Some stored => py_gt_dt (edited x) (edited stored)
  end.

Definition filter_posts_by_indices (posts_arg : list Post) (indices : loc) (h : heap)
  : result (list Post * loc) * heap :=
  match h !! indices with
  | None => (Raise InvalidReference, h)
  | Some ci =>
      match py_filter (edited_after_index (posts ci)) posts_arg with
      | Raise e => (Raise e, h)
      | Ok new_list =>
          match model_copy_deep indices h with
          | None => (Raise InvalidReference, h)
          | Some (new_indices, h1) =>
              let h2 := foldl (fun hh post => posts_setitem new_indices (id post) post hh)
                              h1 new_list in
              (Ok (new_list, new_indices), h2)
          end
      end
  end.

(** ** What the specification says, for comparison with the code *)

(** The window of the specification: [published >= start] when a start is
    set and [published <= end] when an end is set; a post without a
    publication time fails every bound that is set. *)
Definition within_window (start_time end_time : option datetime) (p : Post) : bool :=
  match start_time with
  | None => true
  | Some s => match published p with Some t => dt_geb t s | None => false end
  end
  &&
  match end_time with
  | None => true
  | Some e => match published p with Some t => dt_leb t e | None => false end
  end.

(** The posts the specification keeps when diffing against an index: the
    id is not in the index, or the post was edited strictly later than the
    record stored under its id. *)
Definition new_or_edited (index_posts : gmap string Post) (p : Post) : bool :=
  match index_posts !! id p with
  | None => true
  | Some stored =>
      match edited p, edited stored with
      | Some t, Some t0 => dt_ltb t0 t
      | _, _ => false
      end
  end.

(** Both timestamps that the differ compares for [p] are there. *)
Definition comparable_with_index (index_posts : gmap string Post) (p : Post) : Prop :=
  forall stored, index_posts !! id p = Some stored ->
    is_Some (edited p) /\ is_Some (edited stored).

(** Posts that share an id come in the order of their [edited] times: a
    later one is never older than an earlier one. Lists without repeated
    ids are a special case. *)
Definition same_id_not_older (p q : Post) : Prop :=
  id p = id q ->
  match edited p, edited q with
  | Some tp, Some tq => dt_ltb tq tp = false
  | _, _ => True
  end.
Definition edits_in_order (l : list Post) : Prop := ForallOrdPairs same_id_not_older l.

(** ** Configuration ([ktoolbox/configuration.py]) *)

Record PostStructureConfiguration : Type := mkPostStructureConfiguration {
  attachments : string;
  content_filepath : string
}.

(** [JobConfiguration], with the fields the class declares. *)
Record JobConfiguration : Type := mkJobConfiguration {
  count : Z;
  post_id_as_name : bool;
  post_structure : PostStructureConfiguration
}.

(** The defaults of the class. *)
Definition JobConfiguration_default : JobConfiguration :=
  mkJobConfiguration 10 false (mkPostStructureConfiguration "attachments" "content.txt").

(** A Python object as far as attribute access goes: the name of its class
    and the attributes it has. Reading an attribute it does not have raises
    [AttributeError]. *)
Inductive attr_value : Type :=
| ABool (b : bool)
| AInt (z : Z)
| AStr (s : string)
| APostStructure (p : PostStructureConfiguration).

Record py_object : Type := mkpy_object {
  class_name : string;
  attributes : gmap string attr_value
}.

Definition getattr (o : py_object) (name : string) : result attr_value :=
  match attributes o !! name with
  | Some v => Ok v
  | None => Raise (AttributeError (class_name o) name)
  end.

(** The object [config.job] when it is an instance of [JobConfiguration]:
    it has the three declared fields and no others (fields that the class
    does not declare are dropped when the settings are loaded). *)
Definition JobConfiguration_object (j : JobConfiguration) : py_object :=
  mkpy_object "JobConfiguration"
    (<["count" := AInt (count j)]>
       (<["post_id_as_name" := ABool (post_id_as_name j)]>
          (<["post_structure" := APostStructure (post_structure j)]> ∅))).

(** Truth value of an attribute in a condition. *)
Definition truthy (v : attr_value) : bool :=
  match v with
  | ABool b => b
  | AInt z => negb (Z.eqb z 0)
  | AStr s => negb (String.eqb s "")
  | APostStructure _ => true
  end.

Definition type_name_attr (v : attr_value) : string :=
  match v with
  | ABool _ => "bool"
  | AInt _ => "int"
  | AStr _ => "str"
  | APostStructure _ => "PostStructureConfiguration"
  end.

(** ** [str.format] with keyword arguments only *)

(** The model follows the formatter of CPython 3.11
    ([Objects/stringlib/unicode_format.h]): the template is read from left
    to right; a replacement field is read up to its closing brace, then
    its value is looked up, its attributes and items are followed, it is
    converted, its format specification is expanded and it is rendered,
    before the text behind it is looked at. The first error ends the
    call. *)

(** A value that stands in a replacement field: a string (the keyword
    arguments of the path namer are strings), or another object, which an
    attribute or an item of a value may be. *)
Inductive value (O : Type) : Type :=
| VStr (s : string)
| VObj (o : O).
Arguments VStr {O} s.
Arguments VObj {O} o.

(** What stands between the brackets of [v[...]]: a number or a text. *)
Inductive item_key : Type :=
| KIndex (n : N)
| KName (s : string).

(** What the formatter asks of the values. These are operations of the
    objects of Python, not of [format]: [getattr(v, name)], [v[key]],
    [repr(v)], [ascii(v)], [str(o)] and [format(v, spec)]. Each returns or
    raises; what it does is left open. Two cases are settled by the
    formatter itself and do not go through them: [str] of a string is the
    string, and a string formatted with an empty specification is the
    string. *)
Class object_model : Type := {
  other : Type;
  value_getattr : value other -> string -> result (value other);
  value_getitem : value other -> item_key -> result (value other);
  value_repr : value other -> result string;
  value_ascii : value other -> result string;
  other_str : other -> result string;
  value_format : value other -> string -> result string
}.

(** The largest index a replacement field may hold ([PY_SSIZE_T_MAX] of a
    64-bit build). *)
Definition PY_SSIZE_T_MAX : N := 9223372036854775807%N.

Definition is_digit (c : ascii) : bool :=
  (48 <=? N_of_ascii c)%N && (N_of_ascii c <=? 57)%N.

Fixpoint all_digits (s : string) : bool :=
  match s with
  | EmptyString => true
  | String c r => is_digit c && all_digits r
  end.

(** [get_integer]: the number a text of decimal digits stands for. The
    text is read from the left: a character that is no digit ends the
    reading without a number, and a number beyond [PY_SSIZE_T_MAX] ends it
    with an error, whatever follows. The empty text is no number. *)
Inductive integer_read : Type :=
| NoInteger
| AnInteger (n : N)
| TooManyDigits.

Fixpoint read_digits (acc : N) (s : string) : integer_read :=
  match s with
  | EmptyString => AnInteger acc
  | String c r =>
      if is_digit c then
        let acc' := (acc * 10 + (N_of_ascii c - 48))%N in
        if (acc' <=? PY_SSIZE_T_MAX)%N then read_digits acc' r else TooManyDigits
      else NoInteger
  end.

Definition get_integer (s : string) : integer_read :=
  match s with
  | EmptyString => NoInteger
  | _ => read_digits 0 s
  end.

Definition too_many_digits : exn :=
  ValueError "Too many decimal digits in format string".

Definition index_out_of_range (n : N) : exn :=
  IndexError ("Replacement index " +:+ pretty n
              +:+ " out of range for positional args tuple").

Fixpoint kwargs_get (kwargs : list (string * string)) (name : string) : option string :=
  match kwargs with
  | [] => None
  | (k, v) :: rest => if String.eqb k name then Some v else kwargs_get rest name
  end.

(** [field_name_split]: the name of a field up to its first [.] or [[],
    and what follows. *)
Fixpoint split_first (field_name : string) : string * string :=
  match field_name with
  | EmptyString => ("", "")
  | String c r =>
      if Ascii.eqb c "." || Ascii.eqb c "["
      then ("", field_name)
      else let '(first, rest) := split_first r in (String c first, rest)
  end.

(** The value that the first part of a field name stands for when no
    positional argument was passed: a number or the empty name asks for a
    positional argument, any other name for a keyword argument. *)
Definition field_value (kwargs : list (string * string)) (first : string) : result string :=
  match get_integer first with
  | TooManyDigits => Raise too_many_digits
  | AnInteger n => Raise (index_out_of_range n)
  | NoInteger =>
      if String.eqb first "" then Raise (index_out_of_range 0)
      else match kwargs_get kwargs first with
           | Some v => Ok v
           | None => Raise (KeyError first)
           end
  end.

(** Lower-case hexadecimal digits of a character code, as [%x] prints
    them. *)
Definition hex_digit (n : Z) : ascii :=
  ascii_of_N (Z.to_N (if Z.ltb n 10 then 48 + n else 87 + n)).

Definition hex_code (c : ascii) : string :=
  let n := Z.of_N (N_of_ascii c) in
  if Z.ltb n 16 then String (hex_digit n) ""
  else String (hex_digit (n / 16)) (String (hex_digit (n mod 16)) "").

Definition backslash : ascii := ascii_of_N 92.

Definition unknown_conversion (c : ascii) : exn :=
  ValueError ("Unknown conversion specifier "
              +:+ (if (32 <? N_of_ascii c)%N && (N_of_ascii c <? 127)%N
                   then String c ""
                   else String backslash (String "x" (hex_code c)))).

Definition empty_attribute : exn := ValueError "Empty attribute in format string".

Section Formatter.
Context `{object_model}.

(** One link of a field name: [.name] or [[name]]. *)
Definition attribute_value (v : value other) (name : string) : result (value other) :=
  if String.eqb name "" then Raise empty_attribute
  else value_getattr v name.

Definition item_value (v : value other) (name : string) : result (value other) :=
  match get_integer name with
  | TooManyDigits => Raise too_many_digits
  | AnInteger n => value_getitem v (KIndex n)
  | NoInteger =>
      if String.eqb name "" then Raise empty_attribute
      else value_getitem v (KName name)
  end.

(** Where the walk along the links of a field name stands. *)
Inductive chain_state : Type :=
| AtLink                        (* a link starts here, or the name ends *)
| InAttribute (name : string)   (* behind a dot *)
| InIndex (name : string).      (* behind an opening bracket *)

(** The links are followed one by one, each on the value the one before
    has given. *)
Fixpoint follow_chain (v : value other) (st : chain_state) (rest : string)
  : result (value other) :=
  match rest with
  | EmptyString =>
      match st with
      | AtLink => Ok v
      | InAttribute name => attribute_value v name
      | InIndex _ => Raise (ValueError "Missing ']' in format string")
      end
  | String c r =>
      match st with
      | AtLink =>
          if Ascii.eqb c "." then follow_chain v (InAttribute "") r
          else if Ascii.eqb c "[" then follow_chain v (InIndex "") r
          else Raise (ValueError
                        "Only '.' or '[' may follow ']' in format field specifier")
      | InAttribute name =>
          if Ascii.eqb c "." then
            v' ← attribute_value v name; follow_chain v' (InAttribute "") r
          else if Ascii.eqb c "[" then
            v' ← attribute_value v name; follow_chain v' (InIndex "") r
          else follow_chain v (InAttribute (name +:+ String c "")) r
      | InIndex name =>
          if Ascii.eqb c "]" then
            v' ← item_value v name; follow_chain v' AtLink r
          else follow_chain v (InIndex (name +:+ String c "")) r
      end
  end.

(** [get_field_object]: the value a field name stands for. The first
    part is looked up before the links are read. *)
Definition field_object (kwargs : list (string * string)) (field_name : string)
  : result (value other) :=
  let '(first, rest) := split_first field_name in
  s ← field_value kwargs first;
  follow_chain (VStr s) AtLink rest.

(** [do_conversion]: [!r], [!s] and [!a]. *)
Definition convert (conversion : option ascii) (v : value other) : result (value other) :=
  match conversion with
  | None => Ok v
  | Some c =>
      if Ascii.eqb c "r" then VStr <$> value_repr v
      else if Ascii.eqb c "s" then
        VStr <$> match v with
                 | VStr s => Ok s
                 | VObj o => other_str o
                 end
      else if Ascii.eqb c "a" then VStr <$> value_ascii v
      else Raise (unknown_conversion c)
  end.

(** The value of a field after its conversion. *)
Definition converted_object (kwargs : list (string * string)) (field_name : string)
    (conversion : option ascii) : result (value other) :=
  v ← field_object kwargs field_name;
  convert conversion v.

(** [render_field]. *)
Definition render (v : value other) (spec : string) : result string :=
  match v, spec with
  | VStr s, EmptyString => Ok s
  | _, _ => value_format v spec
  end.

Fixpoint has_open_brace (s : string) : bool :=
  match s with
  | EmptyString => false
  | String c r => Ascii.eqb c "{" || has_open_brace r
  end.

(** [output_markup]: what a replacement field is replaced by. A format
    specification that holds a brace is itself expanded as a template, by
    [expand], once the value has been found and converted. *)
Definition output_field (expand : string -> result string)
    (kwargs : list (string * string)) (field_name : string)
    (conversion : option ascii) (spec : string) : result string :=
  v ← converted_object kwargs field_name conversion;
  spec' ← (if has_open_brace spec then expand spec else Ok spec);
  render v spec'.

(** Where the scan of a template stands. *)
Inductive fmt_state : Type :=
| InText                      (* in literal text *)
| AfterOpen                   (* just read a brace that opens *)
| AfterClose                  (* just read a brace that closes *)
| InField (name : string)     (* in the name of a replacement field *)
| InBrackets (name : string)  (* in the name, behind an opening bracket *)
| AfterBang (name : string)   (* just read the mark of a conversion *)
| AfterConversion (name : string) (conversion : ascii)
| InSpec (name : string) (conversion : option ascii) (spec : string) (nested : nat).
                              (* in the format specification, inside
                                 [nested] braces of its own *)

(** What reading one character leads to. *)
Inductive scan_step : Type :=
| Continue (st : fmt_state)
| Literal (c : ascii)
| Field (name : string) (conversion : option ascii) (spec : string)
| Fail (e : exn).

(** [parse_field], in the name of a field: the name ends at a brace that
    closes, at [:] or at [!]; between brackets only the closing bracket
    counts. *)
Definition name_step (name : string) (c : ascii) : scan_step :=
  if Ascii.eqb c "{" then Fail (ValueError "unexpected '{' in field name")
  else if Ascii.eqb c "[" then Continue (InBrackets (name +:+ String c ""))
  else if Ascii.eqb c "}" then Field name None ""
  else if Ascii.eqb c ":" then Continue (InSpec name None "" 0)
  else if Ascii.eqb c "!" then Continue (AfterBang name)
  else Continue (InField (name +:+ String c "")).

Definition step (st : fmt_state) (c : ascii) : scan_step :=
  match st with
  | InText =>
      if Ascii.eqb c "{" then Continue AfterOpen
      else if Ascii.eqb c "}" then Continue AfterClose
      else Literal c
  | AfterOpen =>
      if Ascii.eqb c "{" then Literal c else name_step "" c
  | AfterClose =>
      if Ascii.eqb c "}" then Literal c
      else Fail (ValueError "Single '}' encountered in format string")
  | InField name => name_step name c
  | InBrackets name =>
      if Ascii.eqb c "]" then Continue (InField (name +:+ String c ""))
      else Continue (InBrackets (name +:+ String c ""))
  | AfterBang name => Continue (AfterConversion name c)
  | AfterConversion name conversion =>
      if Ascii.eqb c "}" then Field name (Some conversion) ""
      else if Ascii.eqb c ":" then Continue (InSpec name (Some conversion) "" 0)
      else Fail (ValueError "expected ':' after conversion specifier")
  | InSpec name conversion spec nested =>
      if Ascii.eqb c "{"
      then Continue (InSpec name conversion (spec +:+ String c "") (S nested))
      else if Ascii.eqb c "}" then
        match nested with
        | O => Field name conversion spec
        | S n => Continue (InSpec name conversion (spec +:+ String c "") n)
        end
      else Continue (InSpec name conversion (spec +:+ String c "") nested)
  end.

(** What the end of the template means in each state. *)
Definition at_end (st : fmt_state) : result string :=
  match st with
  | InText => Ok ""
  | AfterOpen => Raise (ValueError "Single '{' encountered in format string")
  | AfterClose => Raise (ValueError "Single '}' encountered in format string")
  | InField _ | InBrackets _ => Raise (ValueError "expected '}' before end of string")
  | AfterBang _ =>
      Raise (ValueError "end of string while looking for conversion specifier")
  | AfterConversion _ _ | InSpec _ _ _ _ =>
      Raise (ValueError "unmatched '{' in format spec")
  end.

(** [build_string]: text is copied, a doubled brace stands for one brace,
    a replacement field is replaced by its value. *)
Fixpoint format_from (expand : string -> result string)
    (kwargs : list (string * string)) (st : fmt_state) (t : string) : result string :=
  match t with
  | EmptyString => at_end st
  | String c r =>
      match step st c with
      | Continue st' => format_from expand kwargs st' r
      | Literal c' => String c' <$> format_from expand kwargs InText r
      | Field name conversion spec =>
          v ← output_field expand kwargs name conversion spec;
          String.append v <$> format_from expand kwargs InText r
      | Fail e => Raise e
      end
  end.

(** A format specification is expanded one level deep: a replacement
    field inside it may not have a specification with a brace of its
    own. *)
Definition format_spec (kwargs : list (string * string)) (spec : string) : result string :=
  format_from (fun _ => Raise (ValueError "Max string recursion exceeded"))
    kwargs InText spec.

Definition str_format (template : string) (kwargs : list (string * string)) : result string :=
  format_from (format_spec kwargs) kwargs InText template.

End Formatter.

(** ** Path namer *)

(** [d.strftime("%Y-%m-%d")], as glibc renders it: the year as it is, month
    and day with two digits. *)
Definition two_digits (z : Z) : string :=
  if Z.ltb z 10 then "0" +:+ pretty z else pretty z.
Definition strftime_ymd (d : datetime) : string :=
  pretty (year d) +:+ "-" +:+ two_digits (month d) +:+ "-" +:+ two_digits (day d).

Definition strftime_or_empty (d : option datetime) : string :=
  match d with Some t => strftime_ymd t | None => "" end.

(** The keyword arguments [generate_post_path_name] passes to [format]. *)
Definition post_kwargs (post : Post) : list (string * string) :=
  [("id", id post); ("user", user post); ("service", service post);
   ("title", title post);
   ("added", strftime_or_empty (added post));
   ("published", strftime_or_empty (published post));
   ("edited", strftime_or_empty (edited post))].

(** The placeholders a template may use. *)
Definition recognized_placeholders : list string :=
  ["id"; "user"; "service"; "title"; "added"; "published"; "edited"].

(** One call of [logger.error]: the text and the exception put into it. *)
Inductive log_record : Type :=
| LogError (text : string) (e : exn).

Section PathNamer.

(** [pathvalidate.sanitize_filename], a function of another package. *)
Variable sanitize_filename : string -> string.

(** The objects that [format] may come across. *)
Context `{object_model}.

(** [generate_post_path_name], with [config.job] passed in. The result is
    the list of records logged and what the call ended with; [exit(1)]
    raises [SystemExit]. *)
Definition generate_post_path_name (job : py_object) (post : Post)
  : list log_record * result string :=
  match getattr job "post_id_as_path" with
  | Raise e => ([], Raise e)
  | Ok flag =>
      if truthy flag || String.eqb (title post) ""
      then ([], Ok (id post))
      else
        match getattr job "post_dirname_format" with
        | Raise e => ([], Raise e)
        | Ok (AStr template) =>
            match str_format template (post_kwargs post) with
            | Ok rendered => ([], Ok (sanitize_filename rendered))
            | Raise (KeyError k) =>
                ([LogError "`JobConfiguration.post_dirname_format` contains invalid key: "
                           (KeyError k)],
                 Raise (SystemExit 1))
            | Raise e => ([], Raise e)
            end
        | Ok v => ([], Raise (AttributeError (type_name_attr v) "format"))
        end
  end.

End PathNamer.

(** A name that [format] looks up among the keyword arguments: not empty
    and not read as a number. *)
Definition keyword_name (s : string) : bool :=
  negb (String.eqb s "")
  && match get_integer s with NoInteger => true | _ => false end.

(** A character that neither ends the name of a field nor starts a link
    of it; names made of such characters. *)
Definition starts_field_suffix (c : ascii) : bool :=
  Ascii.eqb c "." || Ascii.eqb c "[" || Ascii.eqb c "!" || Ascii.eqb c ":".

Definition plain_char (c : ascii) : bool :=
  negb (Ascii.eqb c "{" || Ascii.eqb c "}" || starts_field_suffix c).

Fixpoint plain_chars (s : string) : bool :=
  match s with
  | EmptyString => true
  | String c r => plain_char c && plain_chars r
  end.

(** A replacement field as it is written between its braces: the field
    name, then [!] and the character of a conversion, then [:] and a
    format specification; the last two may be missing. *)
Record replacement_field : Type := mk_replacement_field {
  rf_name : string;
  rf_conversion : option ascii;
  rf_spec : option string
}.

Definition conversion_text (conversion : option ascii) : string :=
  match conversion with
  | Some c => String "!" (String c "")
  | None => ""
  end.

Definition spec_text (spec : option string) : string :=
  match spec with
  | Some s => String ":" s
  | None => ""
  end.

Definition field_text (f : replacement_field) : string :=
  rf_name f +:+ conversion_text (rf_conversion f) +:+ spec_text (rf_spec f).

(** The text is a field name: outside brackets it holds no brace, no [:]
    and no [!], and every opening bracket has its closing bracket.
    [inside] tells whether the text starts behind an opening bracket. *)
Fixpoint field_name_ok (inside : bool) (s : string) : bool :=
  match s with
  | EmptyString => negb inside
  | String c r =>
      if inside then field_name_ok (negb (Ascii.eqb c "]")) r
      else if Ascii.eqb c "{" || Ascii.eqb c "}" || Ascii.eqb c ":" || Ascii.eqb c "!"
           then false
           else field_name_ok (Ascii.eqb c "[") r
  end.

(** The text is a format specification: its braces come in pairs, so that
    the field ends behind it and not inside it. [nested] counts the
    braces that are open where the text starts. *)
Fixpoint spec_ok (nested : nat) (s : string) : bool :=
  match s with
  | EmptyString => Nat.eqb nested 0
  | String c r =>
      if Ascii.eqb c "{" then spec_ok (S nested) r
      else if Ascii.eqb c "}" then
        match nested with
        | O => false
        | S n => spec_ok n r
        end
      else spec_ok nested r
  end.

Definition field_ok (f : replacement_field) : bool :=
  field_name_ok false (rf_name f) && spec_ok 0 (default "" (rf_spec f)).

(** The name that the field looks up: its field name up to the first
    [.] or [[]. *)
Definition first_name (f : replacement_field) : string :=
  fst (split_first (rf_name f)).

(** ** SHA-256 ([hashlib.sha256]) *)

(** Words are integers below [2^32]; a message is a list of bytes, each an
    integer below 256. *)
Definition two32 : Z := 4294967296.
Definition trunc32 (x : Z) : Z := x mod two32.
Definition plus32 (x y : Z) : Z := trunc32 (x + y).
Definition rot_right (n x : Z) : Z :=
  Z.lor (Z.shiftr x n) (trunc32 (Z.shiftl x (32 - n))).

Definition choose (x y z : Z) : Z :=
  Z.lxor (Z.land x y) (Z.land (Z.lxor x (two32 - 1)) z).
Definition majority (x y z : Z) : Z :=
  Z.lxor (Z.lxor (Z.land x y) (Z.land x z)) (Z.land y z).
Definition big_sigma0 (x : Z) : Z :=
  Z.lxor (Z.lxor (rot_right 2 x) (rot_right 13 x)) (rot_right 22 x).
Definition big_sigma1 (x : Z) : Z :=
  Z.lxor (Z.lxor (rot_right 6 x) (rot_right 11 x)) (rot_right 25 x).
Definition small_sigma0 (x : Z) : Z :=
  Z.lxor (Z.lxor (rot_right 7 x) (rot_right 18 x)) (Z.shiftr x 3).
Definition small_sigma1 (x : Z) : Z :=
  Z.lxor (Z.lxor (rot_right 17 x) (rot_right 19 x)) (Z.shiftr x 10).

(** The first primes, by trial division. *)
Definition is_prime (n : Z) : bool :=
  Z.ltb 1 n
  && forallb (fun d => negb (Z.eqb (n mod d) 0))
       (List.filter (fun d => Z.leb (d * d) n) (map Z.of_nat (seq 2 (Z.to_nat n)))).
Definition first_primes (how_many : nat) : list Z :=
  firstn how_many (List.filter is_prime (map Z.of_nat (seq 2 400))).

(** The integer part of the cube root, bit by bit from the top. *)
Definition cube_root (n : Z) : Z :=
  fold_left (fun r b => let r' := r + 2 ^ b in if Z.leb (r' ^ 3) n then r' else r)
    (map Z.of_nat (rev (seq 0 40))) 0.

(** The round constants: the first 32 bits of the fractional parts of the
    cube roots of the first 64 primes (428a2f98, 71374491, ...). *)
Definition round_constants : list Z :=
  Eval vm_compute in
    map (fun p => trunc32 (cube_root (p * 2 ^ 96))) (first_primes 64).

(** The initial state: the first 32 bits of the fractional parts of the
    square roots of the first 8 primes (6a09e667, bb67ae85, ...). *)
Definition initial_state : list Z :=
  Eval vm_compute in
    map (fun p => trunc32 (Z.sqrt (p * 2 ^ 64))) (first_primes 8).

(** The message followed by the byte [0x80], zero bytes up to 56 modulo
    64, and the length in bits as eight bytes, most significant first. *)
Definition length_bytes (bits : Z) : list Z :=
  map (fun i => Z.shiftr bits (8 * i) mod 256) [7; 6; 5; 4; 3; 2; 1; 0].
Definition sha_pad (msg : list Z) : list Z :=
  let n := Z.of_nat (length msg) in
  msg ++ [128] ++ repeat 0 (Z.to_nat ((55 - n) mod 64)) ++ length_bytes (8 * n).

(** Four bytes to a word, most significant first. *)
Fixpoint to_words (bytes : list Z) : list Z :=
  match bytes with
  | a :: b :: c :: d :: rest => (((a * 256 + b) * 256 + c) * 256 + d) :: to_words rest
  | _ => []
  end.

(** The message schedule: the sixteen words of the block, extended to
    sixty-four. *)
Fixpoint extend_schedule (n : nat) (w : list Z) : list Z :=
  match n with
  | O => w
  | S n' =>
      let t := length w in
      let at_back (k : nat) := nth (t - k)%nat w 0 in
      extend_schedule n'
        (w ++ [plus32 (plus32 (small_sigma1 (at_back 2%nat)) (at_back 7%nat))
                      (plus32 (small_sigma0 (at_back 15%nat)) (at_back 16%nat))])
  end.

Definition sha_round (s : list Z) (kw : Z * Z) : list Z :=
  match s with
  | [a; b; c; d; e; f; g; h] =>
      let t1 := plus32 (plus32 (plus32 h (big_sigma1 e)) (choose e f g))
                       (plus32 (fst kw) (snd kw)) in
      let t2 := plus32 (big_sigma0 a) (majority a b c) in
      [plus32 t1 t2; a; b; c; plus32 d t1; e; f; g]
  | _ => s
  end.

Definition zip_pairs {A B : Type} (l : list A) (k : list B) : list (A * B) :=
  List.combine l k.

Definition sha_block (s : list Z) (block : list Z) : list Z :=
  let w := extend_schedule 48 block in
  let s' := fold_left sha_round (zip_pairs round_constants w) s in
  map (fun p => plus32 (fst p) (snd p)) (zip_pairs s s').

Fixpoint sha_blocks (n : nat) (s : list Z) (words : list Z) : list Z :=
  match n with
  | O => s
  | S n' => sha_blocks n' (sha_block s (firstn 16 words)) (skipn 16 words)
  end.

Definition sha256_words (msg : list Z) : list Z :=
  let words := to_words (sha_pad msg) in
  sha_blocks (Nat.div (length words) 16) initial_state words.

(** [hexdigest()]: eight words, each as eight lower-case hexadecimal
    digits. *)
Definition hex_word (x : Z) : string :=
  fold_right (fun i acc => String (hex_digit (Z.shiftr x (4 * i) mod 16)) acc) ""
    [7; 6; 5; 4; 3; 2; 1; 0].
Definition hex_words (ws : list Z) : string :=
  fold_right (fun x acc => hex_word x +:+ acc) "" ws.

(** The bytes of a [bytes] object, held in a [string]. *)
Fixpoint bytes_of_string (s : string) : list Z :=
  match s with
  | EmptyString => []
  | String c r => Z.of_N (N_of_ascii c) :: bytes_of_string r
  end.

(** [hashlib.sha256(data).hexdigest()]. *)
Definition sha256_hexdigest (data : string) : string :=
  hex_words (sha256_words (bytes_of_string data)).

(** [s.encode()]: UTF-8. A code point below 128 is one byte, one from 128
    to 255 is two bytes. *)
Fixpoint encode_utf8 (s : string) : string :=
  match s with
  | EmptyString => EmptyString
  | String c r =>
      let n := N_of_ascii c in
      if (n <? 128)%N then String c (encode_utf8 r)
      else String (ascii_of_N (192 + n / 64)) (String (ascii_of_N (128 + n mod 64))
             (encode_utf8 r))
  end.

(** ** JSON values *)

(** The argument of [json_hash]: [None], [bool], [int], [str], and lists
    and dictionaries of such values. A dictionary is the list of its
    items in insertion order; its keys are strings and pairwise distinct.
    Floats are not modelled: no statement of this file speaks of a value
    that holds one. *)
Inductive json : Type :=
| JNull
| JBool (b : bool)
| JInt (z : Z)
| JStr (s : string)
| JList (items : list json)
| JDict (entries : list (string * json)).

(** The values that stand in a container once the loops of [sort_list]
    and [hash_dict] have run over it: every dictionary has been replaced
    by a string. *)
Inductive pjson : Type :=
| PNull
| PBool (b : bool)
| PInt (z : Z)
| PStr (s : string)
| PList (items : list pjson).

Fixpoint to_json (p : pjson) : json :=
  match p with
  | PNull => JNull
  | PBool b => JBool b
  | PInt z => JInt z
  | PStr s => JStr s
  | PList l => JList (map to_json l)
  end.

(** [f] over a list from left to right; the first exception ends it. *)
Fixpoint map_result {A B : Type} (f : A -> result B) (l : list A) : result (list B) :=
  match l with
  | [] => Ok []
  | x :: r =>
      match f x with
      | Raise e => Raise e
      | Ok y => match map_result f r with
                | Raise e => Raise e
                | Ok ys => Ok (y :: ys)
                end
      end
  end.

(** ** [json.dumps] *)

Definition dquote : ascii := ascii_of_N 34.

Definition hex_byte (n : N) : string :=
  String (hex_digit (Z.of_N (n / 16))) (String (hex_digit (Z.of_N (n mod 16))) "").

(** One character inside a JSON string ([ensure_ascii] is on). *)
Definition escape_char (c : ascii) : string :=
  let n := N_of_ascii c in
  if (n =? 34)%N then String backslash (String dquote "")
  else if (n =? 92)%N then String backslash (String backslash "")
  else if (n =? 10)%N then String backslash "n"
  else if (n =? 13)%N then String backslash "r"
  else if (n =? 9)%N then String backslash "t"
  else if (n =? 8)%N then String backslash "b"
  else if (n =? 12)%N then String backslash "f"
  else if ((32 <=? n) && (n <=? 126))%N then String c ""
  else String backslash ("u00" +:+ hex_byte n).

Fixpoint escape (s : string) : string :=
  match s with
  | EmptyString => EmptyString
  | String c r => escape_char c +:+ escape r
  end.

Definition json_string (s : string) : string :=
  String dquote (escape s +:+ String dquote "").

(** [", ".join(parts)]. *)
Fixpoint join_comma (parts : list string) : string :=
  match parts with
  | [] => ""
  | x :: r => match r with
              | [] => x
              | _ :: _ => x +:+ ", " +:+ join_comma r
              end
  end.

(** [json.dumps(v)] for a value without dictionaries. *)
Fixpoint dumps (v : pjson) : string :=
  match v with
  | PNull => "null"
  | PBool true => "true"
  | PBool false => "false"
  | PInt z => pretty z
  | PStr s => json_string s
  | PList l => "[" +:+ join_comma (map dumps l) +:+ "]"
  end.

(** ** Comparison and sorting *)

(** [str(type(x))]. *)
Definition type_name (v : pjson) : string :=
  match v with
  | PNull => "NoneType"
  | PBool _ => "bool"
  | PInt _ => "int"
  | PStr _ => "str"
  | PList _ => "list"
  end.
Definition type_str (v : pjson) : string := "<class '" +:+ type_name v +:+ "'>".

(** [bool] is a kind of [int]: [True] is 1 and [False] is 0. *)
Definition as_int (v : pjson) : option Z :=
  match v with
  | PBool b => Some (if b then 1 else 0)
  | PInt z => Some z
  | _ => None
  end.

(** [s < t] on strings: by code points, a proper prefix first. *)
Definition str_ltb (s t : string) : bool :=
  match String.compare s t with Lt => true | _ => false end.

(** [a == b]. *)
Fixpoint py_eq (a b : pjson) : bool :=
  match a, b with
  | PNull, PNull => true
  | PStr s, PStr t => String.eqb s t
  | PList la, PList lb =>
      (fix all_eq (la lb : list pjson) : bool :=
         match la, lb with
         | [], [] => true
         | x :: xs, y :: ys => py_eq x y && all_eq xs ys
         | _, _ => false
         end) la lb
  | _, _ =>
      match as_int a, as_int b with
      | Some x, Some y => Z.eqb x y
      | _, _ => false
      end
  end.

(** [a < b]. Lists are compared at the first position where they hold
    unequal items, or by length when there is none. *)
Fixpoint py_lt (a b : pjson) : result bool :=
  match a, b with
  | PStr s, PStr t => Ok (str_ltb s t)
  | PList la, PList lb =>
      (fix first_diff (la lb : list pjson) : result bool :=
         match la, lb with
         | [], [] => Ok false
         | [], _ :: _ => Ok true
         | _ :: _, [] => Ok false
         | x :: xs, y :: ys => if py_eq x y then first_diff xs ys else py_lt x y
         end) la lb
  | _, _ =>
      match as_int a, as_int b with
      | Some x, Some y => Ok (Z.ltb x y)
      | _, _ => Raise (lt_not_supported (type_name a) (type_name b))
      end
  end.

(** [(str(type(a)), a) < (str(type(b)), b)], the order under which
    [sort_list] sorts: tuples are compared like lists. *)
Definition key_lt (a b : pjson) : result bool :=
  if String.eqb (type_str a) (type_str b)
  then if py_eq a b then Ok false else py_lt a b
  else Ok (str_ltb (type_str a) (type_str b)).

Section Sorting.
Context {A : Type}.
Variable lt : A -> A -> result bool.

(** [x] goes in front of the first element it is less than. *)
Fixpoint insert_sorted (x : A) (l : list A) : result (list A) :=
  match l with
  | [] => Ok [x]
  | y :: r =>
      match lt x y with
      | Raise e => Raise e
      | Ok true => Ok (x :: y :: r)
      | Ok false => cons y <$> insert_sorted x r
      end
  end.

Fixpoint sort_into (acc l : list A) : result (list A) :=
  match l with
  | [] => Ok acc
  | x :: r =>
      match insert_sorted x acc with
      | Raise e => Raise e
      | Ok acc' => sort_into acc' r
      end
  end.

(** [sorted(l)] under the order [lt], as a stable insertion sort. Python's
    sort is stable too: whenever the order is defined on all elements the
    results agree. The model raises as soon as a comparison it makes
    raises. *)
Definition py_sorted (l : list A) : result (list A) := sort_into [] l.

End Sorting.

(** The items of a dictionary sorted as [sort_keys=True] does. The keys of
    a dictionary are distinct, so the order of the keys decides. *)
Definition item_lt {V : Type} (a b : string * V) : result bool :=
  Ok (str_ltb (fst a) (fst b)).

Definition sort_items {V : Type} (d : list (string * V)) : list (string * V) :=
  match py_sorted item_lt d with
  | Ok s => s
  | Raise _ => d
  end.

(** [json.dumps(d, sort_keys=True)] for a dictionary whose values hold no
    dictionaries. *)
Definition dumps_dict (d : list (string * pjson)) : string :=
  "{" +:+ join_comma (map (fun kv => json_string (fst kv) +:+ ": " +:+ dumps (snd kv))
                          (sort_items d)) +:+ "}".

(** [str(v)] for a scalar. *)
Definition py_str (v : json) : string :=
  match v with
  | JNull => "None"
  | JBool true => "True"
  | JBool false => "False"
  | JInt z => pretty z
  | JStr s => s
  | JList _ | JDict _ => ""
  end.

(** ** The canonical hasher *)

Definition sha256_of_text (text : string) : string :=
  sha256_hexdigest (encode_utf8 text).

Section Hasher.

(** The argument [sorted_list] of [json_hash], which its inner functions
    read. *)
Variable sorted_list : bool.

(** What the loops of [sort_list] and [hash_dict] put in the place of an
    element [v]: ["dict-" + hash_dict(v)] for a dictionary, [sort_list(v)]
    for a list, and [v] itself otherwise. *)
Fixpoint substitute (v : json) : result pjson :=
  match v with
  | JNull => Ok PNull
  | JBool b => Ok (PBool b)
  | JInt z => Ok (PInt z)
  | JStr s => Ok (PStr s)
  | JDict d =>
      match map_result (fun kv => pair (fst kv) <$> substitute (snd kv)) d with
      | Raise e => Raise e
      | Ok d' => Ok (PStr ("dict-" +:+ sha256_of_text (dumps_dict d')))
      end
  | JList l =>
      match map_result substitute l with
      | Raise e => Raise e
      | Ok l' => PList <$> (if sorted_list then py_sorted key_lt l' else Ok l')
      end
  end.

Definition substitute_item (kv : string * json) : result (string * pjson) :=
  pair (fst kv) <$> substitute (snd kv).

(** [sort_list(l)]: the list it returns and the content of [l] after the
    call. Without [sorted_list] the two are the same list object. *)
Definition sort_list (l : list json) : result (list pjson * list pjson) :=
  l' ← map_result substitute l;
  r ← (if sorted_list then py_sorted key_lt l' else Ok l');
  Ok (r, l').

(** [hash_list(l)]: the digest and the content of [l] after the call. *)
Definition hash_list (l : list json) : result (string * list pjson) :=
  rl ← sort_list l;
  Ok (sha256_of_text (dumps (PList (fst rl))), snd rl).

(** [hash_dict(d)]: the digest and the content of [d] after the call. *)
Definition hash_dict (d : list (string * json)) : result (string * list (string * pjson)) :=
  d' ← map_result substitute_item d;
  Ok (sha256_of_text (dumps_dict d'), d').

Definition hash_value (v : json) : string := sha256_of_text (py_str v).

Definition hash_json (json_data : json) : result (string * json) :=
  match json_data with
  | JDict d =>
      hd ← hash_dict d;
      Ok (fst hd, JDict (map (fun kv => (fst kv, to_json (snd kv))) (snd hd)))
  | JList l =>
      hl ← hash_list l;
      Ok (fst hl, JList (map to_json (snd hl)))
  | _ => Ok (hash_value json_data, json_data)
  end.

End Hasher.

(** [json_hash(d, sorted_list)]: the digest, and the content of the
    argument [d] after the call. *)
Definition json_hash (d : json) (sorted_list : bool) : result (string * json) :=
  hash_json sorted_list d.

Definition json_digest (d : json) (sorted_list : bool) : result string :=
  fst <$> json_hash d sorted_list.

(** ** Orders and positions, for the statements about sorting *)

(** On the elements of [l] the comparison [lt] never raises and is a strict
    total order: asymmetric, transitive, and two elements neither of which
    is less than the other are the same element. *)
Record strict_total_on {A : Type} (lt : A -> A -> result bool) (l : list A) : Prop :=
  mk_strict_total_on {
    sto_defined : forall x y, x ∈ l -> y ∈ l -> exists b, lt x y = Ok b;
    sto_asym : forall x y, x ∈ l -> y ∈ l -> lt x y = Ok true -> lt y x = Ok false;
    sto_antisym : forall x y, x ∈ l -> y ∈ l ->
                  lt x y = Ok false -> lt y x = Ok false -> x = y;
    sto_trans : forall x y z, x ∈ l -> y ∈ l -> z ∈ l ->
                lt x y = Ok true -> lt y z = Ok true -> lt x z = Ok true
  }.

(** A JSON value with one place left open, at any depth: the place
    itself, or a place inside an item of a list or inside a value of a
    dictionary. *)
Inductive position : Type :=
| Here
| InItem (before : list json) (inner : position) (after : list json)
| InValue (before : list (string * json)) (key : string) (inner : position)
          (after : list (string * json)).

Fixpoint plug (c : position) (v : json) : json :=
  match c with
  | Here => v
  | InItem before inner after => JList (before ++ plug inner v :: after)
  | InValue before key inner after => JDict (before ++ (key, plug inner v) :: after)
  end.

(** ** Reading a serialization back *)

(** These functions read the beginning of a text written by [dumps]; they
    serve to show that the text determines the value. *)

Definition first_char (s : string) : option ascii :=
  match s with
  | EmptyString => None
  | String c _ => Some c
  end.

Definition starts_with_digit (s : string) : bool :=
  match s with
  | EmptyString => false
  | String c _ => is_digit c
  end.

(** [c] can be the first character of the serialization of [p]. *)
Definition starts_like (p : pjson) (c : ascii) : bool :=
  match p with
  | PNull => Ascii.eqb c "n"
  | PBool true => Ascii.eqb c "t"
  | PBool false => Ascii.eqb c "f"
  | PInt _ => is_digit c || Ascii.eqb c "-"
  | PStr _ => Ascii.eqb c dquote
  | PList _ => Ascii.eqb c "["
  end.

Definition hex_value (c : ascii) : N :=
  let n := N_of_ascii c in
  if (n <? 58)%N then (n - 48)%N else (n - 87)%N.

(** The character written at the front of [s] inside a JSON string, and
    the rest of [s]; nothing at the closing quote. *)
Definition read_escaped (s : string) : option (ascii * string) :=
  match s with
  | EmptyString => None
  | String c r =>
      if Ascii.eqb c dquote then None
      else if Ascii.eqb c backslash then
        match r with
        | EmptyString => None
        | String k r' =>
            if Ascii.eqb k "n" then Some (ascii_of_N 10, r')
            else if Ascii.eqb k "r" then Some (ascii_of_N 13, r')
            else if Ascii.eqb k "t" then Some (ascii_of_N 9, r')
            else if Ascii.eqb k "b" then Some (ascii_of_N 8, r')
            else if Ascii.eqb k "f" then Some (ascii_of_N 12, r')
            else if Ascii.eqb k "u" then
              match r' with
              | String _ (String _ (String h (String l r''))) =>
                  Some (ascii_of_N (16 * hex_value h + hex_value l), r'')
              | _ => None
              end
            else Some (k, r')
        end
      else Some (c, r)
  end.

(** What follows the first part in [join_comma]. *)
Definition after_first (rest : list string) : string :=
  match rest with
  | [] => ""
  | _ :: _ => ", " +:+ join_comma rest
  end.

(** ** Auxiliary notions for the statements *)

(** What the predicate [f] says of [x]; nothing is accepted where it
    raises. *)
Definition accepted {A : Type} (f : A -> result bool) (x : A) : bool :=
  match f x with Ok b => b | Raise _ => false end.

(** The [posts] dictionary after the loop [new_indices.posts[post.id] = post]. *)
Definition write_posts (m : gmap string Post) (l : list Post) : gmap string Post :=
  foldl (fun mm post => <[id post := post]> mm) m l.

(** [x] is not after [y] under [lt]; a list in which no element is after a
    later one. *)
Definition not_after {A : Type} (lt : A -> A -> result bool) (x y : A) : Prop :=
  lt y x = Ok false.
Definition ascending {A : Type} (lt : A -> A -> result bool) (l : list A) : Prop :=
  ForallOrdPairs (not_after lt) l.

(** The first character tells the kind of value. *)
Definition same_kind (p q : pjson) : Prop :=
  match p, q with
  | PNull, PNull => True
  | PBool a, PBool b => a = b
  | PInt _, PInt _ => True
  | PStr _, PStr _ => True
  | PList _, PList _ => True
  | _, _ => False
  end.

(** A strict total order on a given list, checked element by element. *)
Ltac split_elem H :=
  repeat (apply elem_of_cons in H as [H | H]; [subst|]);
  try (apply elem_of_nil in H; contradiction).

Ltac check_strict_total :=
  constructor;
  [ intros x y Hx Hy; split_elem Hx; split_elem Hy; eexists; vm_compute; reflexivity
  | intros x y Hx Hy; split_elem Hx; split_elem Hy; vm_compute; intros H;
    first [discriminate H | reflexivity]
  | intros x y Hx Hy; split_elem Hx; split_elem Hy; vm_compute; intros H1 H2;
    first [discriminate H1 | discriminate H2 | reflexivity]
  | intros x y z Hx Hy Hz; split_elem Hx; split_elem Hy; split_elem Hz; vm_compute;
    intros H1 H2; first [discriminate H1 | discriminate H2 | reflexivity] ].

(** A lower-case hexadecimal digit; a text made of such digits. *)
Definition is_hex_digit (c : ascii) : bool :=
  let n := N_of_ascii c in
  ((48 <=? n) && (n <=? 57))%N || ((97 <=? n) && (n <=? 102))%N.

Fixpoint all_hex (s : string) : bool :=
  match s with
  | EmptyString => true
  | String c r => is_hex_digit c && all_hex r
  end.

(** The place of a type among the type names, in the order of the texts
    [str(type(x))]; the order of the sort key on values that are not
    lists. *)
Definition kind_rank (p : pjson) : Z :=
  match p with
  | PNull => 0
  | PBool _ => 1
  | PInt _ => 2
  | PList _ => 3
  | PStr _ => 4
  end.

Definition is_scalar (p : pjson) : bool :=
  match p with
  | PList _ => false
  | _ => true
  end.

Definition scalar_ltb (a b : pjson) : bool :=
  match a, b with
  | PNull, PNull => false
  | PBool x, PBool y => negb x && y
  | PInt x, PInt y => Z.ltb x y
  | PStr x, PStr y => str_ltb x y
  | _, _ => Z.ltb (kind_rank a) (kind_rank b)
  end.

(** A template written with the recognized placeholders only: text
    without braces, doubled braces, and fields [{name}]. *)
Inductive template_part : Type :=
| TText (text : string)
| TOpenBrace
| TCloseBrace
| TField (name : string).

Fixpoint no_braces (s : string) : bool :=
  match s with
  | EmptyString => true
  | String c r => negb (Ascii.eqb c "{" || Ascii.eqb c "}") && no_braces r
  end.

Definition part_text (p : template_part) : string :=
  match p with
  | TText text => text
  | TOpenBrace => "{{"
  | TCloseBrace => "}}"
  | TField name => String "{" (name +:+ "}")
  end.

Definition template_text (parts : list template_part) : string :=
  fold_right (fun p acc => part_text p +:+ acc) "" parts.

Definition part_ok (p : template_part) : Prop :=
  match p with
  | TText text => no_braces text = true
  | TField name => name ∈ recognized_placeholders
  | _ => True
  end.

(** What a part stands for in the rendered name. *)
Definition part_value (kwargs : list (string * string)) (p : template_part) : string :=
  match p with
  | TText text => text
  | TOpenBrace => "{"
  | TCloseBrace => "}"
  | TField name => default "" (kwargs_get kwargs name)
  end.

Definition rendered_text (kwargs : list (string * string)) (parts : list template_part)
  : string :=
  fold_right (fun p acc => part_value kwargs p +:+ acc) "" parts.

(** A container that directly holds a dictionary. *)
Definition holds_dict (v : json) : Prop :=
  match v with
  | JList l => exists x, In (JDict x) l
  | JDict d => exists k x, In (k, JDict x) d
  | _ => False
  end.

(** A post that stops the time window filter: it has no publication time
    while a bound is set. *)
Definition unpublished_at_bound (start_time end_time : option datetime) (p : Post) : bool :=
  match published p with
  | Some _ => false
  | None => match start_time, end_time with
            | None, None => false
            | _, _ => true
            end
  end.

(** Every record of an index is stored under its own id. *)
Definition keyed_by_id (m : gmap string Post) : Prop :=
  forall k p, m !! k = Some p -> id p = k.

(** A value that is no container; a container all of whose items are
    such values (or such a value itself). *)
Definition json_scalar (v : json) : bool :=
  match v with
  | JList _ | JDict _ => false
  | _ => true
  end.

Definition flat (v : json) : bool :=
  match v with
  | JList l => forallb json_scalar l
  | JDict d => forallb (fun kv => json_scalar (snd kv)) d
  | _ => true
  end.

(** No list of the value, at any depth, has two items. *)
Fixpoint lists_short (v : json) : bool :=
  match v with
  | JList l => Nat.leb (length l) 1 && forallb lists_short l
  | JDict d => forallb (fun kv => lists_short (snd kv)) d
  | _ => true
  end.

(** A text with every brace doubled, as a template stands for it. *)
Fixpoint double_braces (s : string) : string :=
  match s with
  | EmptyString => EmptyString
  | String c r =>
      if Ascii.eqb c "{" || Ascii.eqb c "}" then String c (String c (double_braces r))
      else String c (double_braces r)
  end.

(** ** Sample values *)

Definition dt_2024_01_01 : datetime := mkdatetime 2024 1 1 0 0 0 0.
Definition dt_2024_02_01 : datetime := mkdatetime 2024 2 1 0 0 0 0.
Definition dt_2024_03_01 : datetime := mkdatetime 2024 3 1 0 0 0 0.

Definition post_jan : Post :=
  mkPost "1" "alice" "patreon" "first" None (Some dt_2024_01_01) (Some dt_2024_01_01).
Definition post_feb : Post :=
  mkPost "2" "alice" "patreon" "second" None (Some dt_2024_02_01) (Some dt_2024_02_01).
Definition post_mar : Post :=
  mkPost "3" "alice" "patreon" "third" None (Some dt_2024_03_01) (Some dt_2024_03_01).
Definition post_undated : Post :=
  mkPost "4" "alice" "patreon" "draft" None None None.

Definition index_jan : CreatorIndices :=
  mkCreatorIndices "alice" "patreon" {[ "1" := post_jan ]}.
Definition index_empty : CreatorIndices := mkCreatorIndices "alice" "patreon" ∅.
Definition heap_jan : heap := {[ 1%positive := index_jan ]}.
Definition heap_empty_index : heap := {[ 1%positive := index_empty ]}.

(** A record of post 1 that carries no [edited] time. *)
Definition post_jan_unedited : Post :=
  mkPost "1" "alice" "patreon" "first" None (Some dt_2024_01_01) None.
(** A second record of post 1, edited in March. *)
Definition post_jan_reedited : Post :=
  mkPost "1" "alice" "patreon" "first" None (Some dt_2024_01_01) (Some dt_2024_03_01).

(** A job configuration that has the two options the path namer reads. *)
Definition job_with_naming (post_id_as_path : bool) (post_dirname_format : string) : py_object :=
  mkpy_object "JobConfiguration"
    (<["post_id_as_path" := ABool post_id_as_path]>
       (<["post_dirname_format" := AStr post_dirname_format]> ∅)).

Definition post_42 : Post :=
  mkPost "42" "alice" "patreon" "hello" None (Some dt_2024_02_01) None.


Definition nested_sample : json := JDict [("a", JDict [("b", JInt 1)])].

(** The digest that [hash_dict] gives the dictionary with the one item
    ["a": 1]. *)
Definition digest_of_a1 : string :=
  "f9d86028c6e0d64e225186f96acb69338b2c59764df79162107f5c4bb34d1310".

(* ===================================================================== *)
(** * Part II: properties                                                 *)
(* ===================================================================== *)

(** ** The order on datetimes *)

Lemma lex_compare_antisym (a b : list Z) :
  lex_compare b a = CompOpp (lex_compare a b).
Proof.
  revert b; induction a as [|x a IH]; intros [|y b]; simpl; try reflexivity.
  rewrite (Z.compare_antisym x y).
  destruct (Z.compare x y); simpl; auto.
Qed.

Lemma lex_compare_refl (a : list Z) : lex_compare a a = Eq.
Proof. induction a as [|x a IH]; simpl; [reflexivity|]. now rewrite Z.compare_refl. Qed.

Lemma lex_compare_eq (a b : list Z) : lex_compare a b = Eq -> a = b.
Proof.
  revert b; induction a as [|x a IH]; intros [|y b]; simpl; try easy.
  destruct (Z.compare_spec x y); try easy.
  intros H'; f_equal; auto.
Qed.

Lemma lex_compare_lt_trans (a b c : list Z) :
  lex_compare a b = Lt -> lex_compare b c = Lt -> lex_compare a c = Lt.
Proof.
  revert b c; induction a as [|x a IH]; intros [|y b] [|z c]; simpl; try easy.
  destruct (Z.compare_spec x y), (Z.compare_spec y z); try easy; subst.
  - rewrite Z.compare_refl. apply IH.
  - intros _ _. destruct (Z.compare_spec y z); try lia; reflexivity.
  - intros _ _. destruct (Z.compare_spec x z); try lia; reflexivity.
  - intros _ _. destruct (Z.compare_spec x z); try lia; reflexivity.
Qed.

Lemma dt_gtb_ltb (a b : datetime) : dt_gtb a b = dt_ltb b a.
Proof.
  unfold dt_gtb, dt_ltb, dt_compare.
  rewrite (lex_compare_antisym (dt_fields a) (dt_fields b)).
  destruct (lex_compare (dt_fields a) (dt_fields b)); reflexivity.
Qed.

Lemma dt_geb_not_ltb (a b : datetime) : dt_geb a b = negb (dt_ltb a b).
Proof. unfold dt_geb, dt_ltb. destruct (dt_compare a b); reflexivity. Qed.

Lemma dt_leb_not_gtb (a b : datetime) : dt_leb a b = negb (dt_gtb a b).
Proof. unfold dt_leb, dt_gtb. destruct (dt_compare a b); reflexivity. Qed.

Lemma dt_ltb_irrefl (a : datetime) : dt_ltb a a = false.
Proof. unfold dt_ltb, dt_compare. now rewrite lex_compare_refl. Qed.

Lemma dt_ltb_trans (a b c : datetime) :
  dt_ltb a b = true -> dt_ltb b c = true -> dt_ltb a c = true.
Proof.
  unfold dt_ltb, dt_compare. intros H1 H2.
  destruct (lex_compare (dt_fields a) (dt_fields b)) eqn:E1; try discriminate.
  destruct (lex_compare (dt_fields b) (dt_fields c)) eqn:E2; try discriminate.
  now rewrite (lex_compare_lt_trans _ _ _ E1 E2).
Qed.

(** [a <= b < c] gives [a < c]. *)
Lemma dt_le_lt_trans (a b c : datetime) :
  dt_ltb b a = false -> dt_ltb b c = true -> dt_ltb a c = true.
Proof.
  unfold dt_ltb, dt_compare. intros H1 H2.
  rewrite (lex_compare_antisym (dt_fields a) (dt_fields b)) in H1.
  destruct (lex_compare (dt_fields a) (dt_fields b)) eqn:E1; simpl in H1; try discriminate.
  - apply lex_compare_eq in E1. now rewrite E1.
  - destruct (lex_compare (dt_fields b) (dt_fields c)) eqn:E2; try discriminate.
    now rewrite (lex_compare_lt_trans _ _ _ E1 E2).
Qed.

Lemma dt_ltb_asym (a b : datetime) : dt_ltb a b = true -> dt_ltb b a = false.
Proof.
  unfold dt_ltb, dt_compare.
  rewrite (lex_compare_antisym (dt_fields a) (dt_fields b)).
  destruct (lex_compare (dt_fields a) (dt_fields b)); simpl; congruence.
Qed.

(** ** Time window filter *)

Lemma match_post_time_present (p : Post) (t : datetime) (start_time end_time : option datetime) :
  published p = Some t ->
  _match_post_time p start_time end_time = Ok (within_window start_time end_time p).
Proof.
  intros Hp. unfold _match_post_time, within_window. rewrite Hp.
  destruct start_time as [s|], end_time as [e|]; simpl;
    rewrite ?dt_geb_not_ltb, ?dt_leb_not_gtb;
    repeat match goal with |- context [dt_ltb ?a ?b] => destruct (dt_ltb a b) end;
    simpl; try reflexivity;
    repeat match goal with |- context [dt_gtb ?a ?b] => destruct (dt_gtb a b) end;
    reflexivity.
Qed.

(** C5. When every post has a publication time, the time window filter
    yields, in the order of the input, exactly the posts with
    [published >= start] (if a start is given) and [published <= end] (if an
    end is given), and it ends without an exception. *)
Theorem filter_posts_by_time_window (post_list : list Post)
    (start_time end_time : option datetime) :
  Forall (fun p => is_Some (published p)) post_list ->
  filter_posts_by_time post_list start_time end_time
  = (List.filter (within_window start_time end_time) post_list, None).
Proof.
  induction 1 as [|p l [t Ht] _ IH]; simpl; [reflexivity|].
  rewrite (match_post_time_present p t _ _ Ht), IH.
  destruct (within_window start_time end_time p); reflexivity.
Qed.

Lemma filter_posts_by_time_window_witness :
  filter_posts_by_time [post_mar; post_jan; post_feb] (Some dt_2024_02_01) None
  = ([post_mar; post_feb], None).
Proof.
  apply (filter_posts_by_time_window [post_mar; post_jan; post_feb] (Some dt_2024_02_01) None).
  repeat constructor; eexists; reflexivity.
Defined.

(** C3. For a post without a publication time and a window with a bound,
    the comparison of [_match_post_time] raises [TypeError]: the post is
    not reported as a non-match. The check of the start comes first. *)
Theorem match_post_time_unpublished_raises (p : Post)
    (start_time end_time : option datetime) :
  published p = None ->
  is_Some start_time \/ is_Some end_time ->
  _match_post_time p start_time end_time
  = Raise (match start_time with
           | Some _ => lt_not_supported "NoneType" "datetime.datetime"
           | None => gt_not_supported "NoneType" "datetime.datetime"
           end).
Proof.
  intros Hp Hb. unfold _match_post_time. rewrite Hp.
  destruct start_time as [s|]; simpl; [reflexivity|].
  destruct end_time as [e|]; simpl; [reflexivity|].
  destruct Hb as [[? ?]|[? ?]]; discriminate.
Qed.

Lemma match_post_time_unpublished_raises_witness :
  _match_post_time post_undated (Some dt_2024_01_01) None
  = Raise (TypeError
      "'<' not supported between instances of 'NoneType' and 'datetime.datetime'").
Proof.
  apply (match_post_time_unpublished_raises post_undated (Some dt_2024_01_01) None).
  - reflexivity.
  - left. eexists. reflexivity.
Defined.

(** The generator stops with that exception at the first such post; the
    posts after it are never looked at. *)
Example filter_posts_by_time_unpublished :
  filter_posts_by_time [post_feb; post_undated; post_mar] (Some dt_2024_01_01) None
  = ([post_feb],
     Some (TypeError
       "'<' not supported between instances of 'NoneType' and 'datetime.datetime'")).
Proof. reflexivity. Qed.

(** Without any bound nothing is compared and every post is kept. *)
Example filter_posts_by_time_unbounded :
  filter_posts_by_time [post_feb; post_undated] None None
  = ([post_feb; post_undated], None).
Proof. reflexivity. Qed.

(** ** Indices differ *)

Lemma py_filter_ok {A : Type} (f : A -> result bool) (g : A -> bool) (l : list A) :
  Forall (fun x => f x = Ok (g x)) l -> py_filter f l = Ok (List.filter g l).
Proof.
  induction 1 as [|x l Hx _ IH]; simpl; [reflexivity|].
  rewrite Hx, IH. destruct (g x); reflexivity.
Qed.

(** When [list(filter(...))] returns, the predicate returned on every
    element, and what is kept is what it accepted. *)
Lemma py_filter_inv {A : Type} (f : A -> result bool) (l ys : list A) :
  py_filter f l = Ok ys ->
  Forall (fun x => f x = Ok (accepted f x)) l /\ ys = List.filter (accepted f) l.
Proof.
  revert ys; induction l as [|x l IH]; simpl; intros ys H.
  - injection H as <-. split; constructor.
  - destruct (f x) as [keep|e] eqn:Hx; [|discriminate].
    destruct (py_filter f l) as [zs|e] eqn:Hl; [|discriminate].
    injection H as <-.
    destruct (IH zs eq_refl) as (Hg & ->).
    split.
    + constructor; [|exact Hg]. unfold accepted. now rewrite Hx.
    + simpl. replace (accepted f x) with keep by (unfold accepted; now rewrite Hx).
      reflexivity.
Qed.

Lemma edited_after_index_comparable (m : gmap string Post) (p : Post) :
  comparable_with_index m p -> edited_after_index m p = Ok (new_or_edited m p).
Proof.
  unfold comparable_with_index, edited_after_index, new_or_edited.
  destruct (m !! id p) as [stored|]; [|reflexivity].
  intros H. destruct (H stored eq_refl) as [[t Ht] [t0 Ht0]].
  rewrite Ht, Ht0. simpl. now rewrite dt_gtb_ltb.
Qed.

Lemma foldl_posts_setitem (r : loc) (ci : CreatorIndices) (l : list Post) (h : heap) :
  h !! r = Some ci ->
  foldl (fun hh post => posts_setitem r (id post) post hh) h l
  = <[r := mkCreatorIndices (creator_id ci) (creator_service ci) (write_posts (posts ci) l)]> h.
Proof.
  revert h ci; induction l as [|p l IH]; intros h ci Hr.
  - destruct ci. simpl. now rewrite insert_id.
  - change (foldl (fun hh post => posts_setitem r (id post) post hh) h (p :: l))
      with (foldl (fun hh post => posts_setitem r (id post) post hh)
              (posts_setitem r (id p) p h) l).
    rewrite (IH _ (mkCreatorIndices (creator_id ci) (creator_service ci)
                     (<[id p := p]> (posts ci)))).
    + simpl. apply map_eq. intros k. destruct (decide (r = k)) as [<-|Hne].
      * now rewrite !lookup_insert_eq.
      * rewrite !lookup_insert_ne by done. unfold posts_setitem.
        now rewrite lookup_alter_ne.
    + unfold posts_setitem. now rewrite lookup_alter_eq, Hr.
Qed.

(** The differ, spelled out for a valid reference. *)
Lemma filter_posts_by_indices_unfold (posts_arg : list Post) (indices : loc)
    (h : heap) (ci : CreatorIndices) :
  h !! indices = Some ci ->
  filter_posts_by_indices posts_arg indices h
  = match py_filter (edited_after_index (posts ci)) posts_arg with
    | Raise e => (Raise e, h)
    | Ok new_list =>
        (Ok (new_list, fresh (dom h)),
         <[fresh (dom h) := mkCreatorIndices (creator_id ci) (creator_service ci)
                              (write_posts (posts ci) new_list)]> h)
    end.
Proof.
  intros Hr. unfold filter_posts_by_indices, model_copy_deep. rewrite Hr. simpl.
  destruct (py_filter _ _) as [new_list|e]; [|reflexivity].
  f_equal. erewrite foldl_posts_setitem by apply lookup_insert_eq.
  now rewrite insert_insert_eq.
Qed.

Lemma fresh_dom_None (h : heap) : h !! fresh (dom h) = None.
Proof. apply not_elem_of_dom. apply is_fresh. Qed.

Lemma write_posts_dom (m : gmap string Post) (l : list Post) :
  dom m ⊆ dom (write_posts m l).
Proof.
  revert m; induction l as [|p l IH]; intros m; simpl; [done|].
  etrans; [|apply IH]. rewrite dom_insert. set_solver.
Qed.

(** Where the loop leaves an id: with a record that satisfies whatever
    the old record and all written posts of that id satisfy. *)
Lemma write_posts_lookup_inv (Phi : Post -> Prop) (k : string)
    (l : list Post) (m : gmap string Post) :
  (forall q, q ∈ l -> id q = k -> Phi q) ->
  (exists s, m !! k = Some s /\ Phi s) ->
  exists s, write_posts m l !! k = Some s /\ Phi s.
Proof.
  revert m; induction l as [|p l IH]; intros m Hl Hm; simpl; [exact Hm|].
  apply IH.
  - intros q Hq. apply Hl. now right.
  - destruct (decide (id p = k)) as [Hk|Hk].
    + exists p. rewrite <- Hk at 1. rewrite lookup_insert_eq. split; [done|].
      apply Hl; [left|done].
    + now rewrite lookup_insert_ne.
Qed.

Lemma write_posts_lookup_None (k : string) (l : list Post) (m : gmap string Post) :
  m !! k = None -> (forall q, q ∈ l -> id q <> k) -> write_posts m l !! k = None.
Proof.
  revert m; induction l as [|p l IH]; intros m Hm Hl; simpl; [exact Hm|].
  apply IH.
  - rewrite lookup_insert_ne; [done|]. apply Hl. left.
  - intros q Hq. apply Hl. now right.
Qed.

Lemma write_posts_app (m : gmap string Post) (a b : list Post) :
  write_posts m (a ++ b) = write_posts (write_posts m a) b.
Proof. unfold write_posts. apply foldl_app. Qed.

Lemma ForallOrdPairs_app_later {A : Type} (R : A -> A -> Prop) (l1 l2 : list A) (p : A) :
  ForallOrdPairs R (l1 ++ p :: l2) -> Forall (R p) l2.
Proof.
  induction l1 as [|x l1 IH]; simpl; intros H; inversion H; subst; auto.
Qed.

Lemma filter_none {A : Type} (l : list A) : List.filter (fun _ => false) l = [].
Proof. induction l; simpl; auto. Qed.

(** After the differ has run, no post of the same list is newer than the
    updated index. *)
Lemma edited_after_written_index (m0 : gmap string Post) (l : list Post) (p : Post) :
  Forall (fun x => edited_after_index m0 x = Ok (accepted (edited_after_index m0) x)) l ->
  Forall (fun x => is_Some (edited x)) l ->
  edits_in_order l ->
  p ∈ l ->
  edited_after_index (write_posts m0 (List.filter (accepted (edited_after_index m0)) l)) p
  = Ok false.
Proof.
  intros Hret Hed Hord Hp.
  set (acc := accepted (edited_after_index m0)).
  assert (Hedp : is_Some (edited p)) by (rewrite Forall_forall in Hed; auto).
  destruct Hedp as [tp Htp].
  set (Phi := fun q : Post => exists tq, edited q = Some tq /\ dt_gtb tp tq = false).
  assert (Hgoal : forall m, (exists s, m !! id p = Some s /\ Phi s) ->
                            edited_after_index m p = Ok false).
  { intros m (s & Hs & tq & Htq & Hcmp). unfold edited_after_index.
    rewrite Hs, Htp, Htq. simpl. now rewrite Hcmp. }
  apply Hgoal.
  destruct (acc p) eqn:Hacc.
  - (* p itself was written; only posts after it can overwrite it *)
    apply list_elem_of_split in Hp as (l1 & l2 & ->).
    rewrite List.filter_app. simpl. fold acc. rewrite Hacc.
    rewrite write_posts_app. simpl.
    apply write_posts_lookup_inv.
    + intros q Hq Hid.
      apply list_elem_of_In, List.filter_In in Hq as [Hq _].
      apply ForallOrdPairs_app_later in Hord.
      rewrite List.Forall_forall in Hord. specialize (Hord q Hq).
      unfold same_id_not_older in Hord. rewrite Htp in Hord.
      assert (Hedq : is_Some (edited q)).
      { rewrite Forall_forall in Hed. apply Hed.
        apply list_elem_of_In, in_or_app. right. now right. }
      destruct Hedq as [tq Htq]. rewrite Htq in Hord.
      exists tq. split; [done|]. rewrite dt_gtb_ltb. now apply Hord.
    + exists p. rewrite lookup_insert_eq. split; [done|].
      exists tp. split; [done|]. now rewrite dt_gtb_ltb, dt_ltb_irrefl.
  - (* p was skipped: the index held a record at least as new *)
    assert (Hfp : edited_after_index m0 p = Ok false).
    { rewrite Forall_forall in Hret. rewrite (Hret p Hp). fold acc. now rewrite Hacc. }
    unfold edited_after_index in Hfp.
    destruct (m0 !! id p) as [s|] eqn:Hs; [|discriminate].
    rewrite Htp in Hfp. destruct (edited s) as [ts|] eqn:Hts; [|discriminate].
    simpl in Hfp. injection Hfp as Hps.
    apply write_posts_lookup_inv.
    + intros q Hq Hid.
      apply list_elem_of_In, List.filter_In in Hq as [Hq Haq].
      apply list_elem_of_In in Hq.
      assert (Hfq : edited_after_index m0 q = Ok true).
      { rewrite Forall_forall in Hret. rewrite (Hret q Hq). fold acc. now rewrite Haq. }
      unfold edited_after_index in Hfq. rewrite Hid, Hs, Hts in Hfq.
      destruct (edited q) as [tq|] eqn:Htq; [|discriminate].
      simpl in Hfq. injection Hfq as Hqs.
      exists tq. split; [done|].
      rewrite dt_gtb_ltb in *. apply dt_ltb_asym.
      now apply (dt_le_lt_trans tp ts tq).
    + exists s. split; [done|]. exists ts. now split.
Qed.

(** C1, as amended. When the [edited] times the differ has to compare are
    present (those of every post whose id is in the index, and of the
    record stored under that id), the changed list is the input list
    filtered, in its order, by: the id is not in the index, or [edited] is
    strictly later than that of the stored record. *)
Theorem filter_posts_by_indices_changed (posts_arg : list Post) (indices : loc)
    (h : heap) (ci : CreatorIndices) :
  h !! indices = Some ci ->
  Forall (comparable_with_index (posts ci)) posts_arg ->
  exists updated,
    fst (filter_posts_by_indices posts_arg indices h)
    = Ok (List.filter (new_or_edited (posts ci)) posts_arg, updated).
Proof.
  intros Hr Hcmp. rewrite (filter_posts_by_indices_unfold _ _ _ _ Hr).
  rewrite (py_filter_ok _ (new_or_edited (posts ci))).
  - eexists. reflexivity.
  - eapply List.Forall_impl; [|exact Hcmp].
    intros p. apply edited_after_index_comparable.
Qed.

Lemma filter_posts_by_indices_changed_witness :
  exists updated,
    fst (filter_posts_by_indices [post_jan; post_feb] 1%positive heap_jan)
    = Ok ([post_feb], updated).
Proof.
  apply (filter_posts_by_indices_changed [post_jan; post_feb] 1%positive heap_jan index_jan).
  - reflexivity.
  - constructor; [|constructor; [|constructor]]; intros stored Hs; vm_compute in Hs;
      first [discriminate | injection Hs as <-; split; eexists; reflexivity].
Defined.

(** C1 as stated fails: a post whose id is in the index and that has no
    [edited] time makes the differ raise; no changed list is returned. *)
Lemma filter_posts_by_indices_unedited_raises :
  filter_posts_by_indices [post_feb; post_jan_unedited] 1%positive heap_jan
  = (Raise (TypeError
      "'>' not supported between instances of 'NoneType' and 'datetime.datetime'"),
     heap_jan).
Proof. vm_compute. reflexivity. Qed.

(** The example of the specification. *)
Example filter_posts_by_indices_spec_example :
  filter_posts_by_indices [post_jan; post_feb] 1%positive heap_jan
  = (Ok ([post_feb], 2%positive),
     {[ 1%positive := index_jan;
        2%positive := mkCreatorIndices "alice" "patreon"
                        {[ "1" := post_jan; "2" := post_feb ]} ]}).
Proof. vm_compute. reflexivity. Qed.

(** C9. Whatever the differ does, every object that was in the heap before
    the call, the input index among them, is the same after it; when it
    returns, the updated index is a new object, and every id of the input
    index is an id of the updated one. *)
Theorem filter_posts_by_indices_frame (posts_arg : list Post) (indices : loc) (h : heap) :
  (forall r, is_Some (h !! r) ->
     snd (filter_posts_by_indices posts_arg indices h) !! r = h !! r)
  /\ match fst (filter_posts_by_indices posts_arg indices h) with
     | Ok (_, updated) =>
         h !! updated = None
         /\ exists ci ci',
              h !! indices = Some ci
              /\ snd (filter_posts_by_indices posts_arg indices h) !! updated = Some ci'
              /\ dom (posts ci) ⊆ dom (posts ci')
     | Raise _ => snd (filter_posts_by_indices posts_arg indices h) = h
     end.
Proof.
  destruct (h !! indices) as [ci|] eqn:Hr.
  - rewrite (filter_posts_by_indices_unfold _ _ _ _ Hr).
    destruct (py_filter _ _) as [new_list|e]; simpl; [|split; auto].
    split.
    + intros r [x Hx]. rewrite lookup_insert_ne; [done|].
      intros <-. rewrite fresh_dom_None in Hx. discriminate.
    + split; [apply fresh_dom_None|].
      eexists ci, _. split; [done|]. split; [apply lookup_insert_eq|].
      simpl. apply write_posts_dom.
  - unfold filter_posts_by_indices. rewrite Hr. simpl. auto.
Qed.

(** C6, as amended. Take posts that all carry an [edited] time and in which
    posts of the same id come in the order of their [edited] times (so in
    particular posts with pairwise different ids). If the differ returns
    an updated index for them, running it again on the same posts and that
    index returns an empty changed list. *)
Theorem filter_posts_by_indices_twice (posts_arg changed : list Post)
    (indices updated : loc) (h h1 : heap) :
  Forall (fun p => is_Some (edited p)) posts_arg ->
  edits_in_order posts_arg ->
  filter_posts_by_indices posts_arg indices h = (Ok (changed, updated), h1) ->
  exists updated2,
    fst (filter_posts_by_indices posts_arg updated h1) = Ok ([], updated2).
Proof.
  intros Hed Hord Hrun.
  destruct (h !! indices) as [ci|] eqn:Hr;
    [|unfold filter_posts_by_indices in Hrun; rewrite Hr in Hrun; discriminate].
  rewrite (filter_posts_by_indices_unfold _ _ _ _ Hr) in Hrun.
  destruct (py_filter _ _) as [new_list|e] eqn:Hf; [|discriminate].
  injection Hrun as <- <- <-.
  apply py_filter_inv in Hf as [Hret ->].
  erewrite filter_posts_by_indices_unfold by apply lookup_insert_eq.
  simpl.
  rewrite (py_filter_ok _ (fun _ => false)).
  - rewrite filter_none. eexists. reflexivity.
  - apply Forall_forall. intros p Hp.
    now apply edited_after_written_index.
Qed.

Lemma edits_in_order_NoDup (l : list Post) :
  NoDup (map id l) -> edits_in_order l.
Proof.
  induction l as [|p l IH]; simpl; intros H; [constructor|].
  apply NoDup_cons in H as [Hp Hl].
  constructor; [|exact (IH Hl)].
  apply List.Forall_forall. intros q Hq Hid. exfalso. apply Hp.
  rewrite Hid. apply list_elem_of_fmap. exists q. split; [done|].
  now apply list_elem_of_In.
Qed.

Lemma filter_posts_by_indices_twice_witness :
  exists updated2,
    fst (filter_posts_by_indices [post_jan; post_feb] 2%positive
           {[ 1%positive := index_jan;
              2%positive := mkCreatorIndices "alice" "patreon"
                              {[ "1" := post_jan; "2" := post_feb ]} ]})
    = Ok ([], updated2).
Proof.
  apply (filter_posts_by_indices_twice [post_jan; post_feb] [post_feb]
           1%positive 2%positive heap_jan).
  - repeat constructor; eexists; reflexivity.
  - apply edits_in_order_NoDup. apply (bool_decide_unpack _). vm_compute. exact I.
  - vm_compute. reflexivity.
Defined.

(** C6 as stated fails: two records of one post, the newer one first, all
    with [edited] times. The first run stores the older record last, so the
    second run finds the newer record changed again. *)
Lemma filter_posts_by_indices_twice_changed :
  filter_posts_by_indices [post_jan_reedited; post_jan] 1%positive heap_empty_index
  = (Ok ([post_jan_reedited; post_jan], 2%positive),
     {[ 1%positive := index_empty; 2%positive := index_jan ]})
  /\ fst (filter_posts_by_indices [post_jan_reedited; post_jan] 2%positive
            {[ 1%positive := index_empty; 2%positive := index_jan ]})
     = Ok ([post_jan_reedited], 3%positive).
Proof. split; vm_compute; reflexivity. Qed.

(** ** Path namer *)

Lemma result_fmap_compose {A B C : Type} (f : A -> B) (g : B -> C) (m : result A) :
  g <$> (f <$> m) = (fun a => g (f a)) <$> m.
Proof. destruct m; reflexivity. Qed.

Lemma result_fmap_ext {A B : Type} (f g : A -> B) (m : result A) :
  (forall a, f a = g a) -> f <$> m = g <$> m.
Proof. intros H. destruct m; simpl; [|reflexivity]. unfold fmap, result_fmap. now rewrite H. Qed.

Lemma string_app_cons (x : ascii) (a b : string) :
  String x a +:+ b = String x (a +:+ b).
Proof. reflexivity. Qed.

Lemma string_app_nil_l (b : string) : "" +:+ b = b.
Proof. reflexivity. Qed.

Lemma string_app_nil_r (a : string) : a +:+ "" = a.
Proof. induction a as [|x a IH]; [reflexivity|]. now rewrite string_app_cons, IH. Qed.

Lemma string_app_assoc (a b c : string) : (a +:+ b) +:+ c = a +:+ (b +:+ c).
Proof.
  induction a as [|x a IH]; [reflexivity|]. now rewrite !string_app_cons, IH.
Qed.

(** A part of a template that renders on its own can be rendered first. *)
Lemma format_from_app `{object_model} (expand : string -> result string)
    (kwargs : list (string * string)) (pre t s : string) (st : fmt_state) :
  format_from expand kwargs st pre = Ok s ->
  format_from expand kwargs st (pre +:+ t)
  = String.append s <$> format_from expand kwargs InText t.
Proof.
  revert st s; induction pre as [|c r IH]; intros st s Hs.
  - destruct st; cbn in Hs; try discriminate. injection Hs as <-.
    rewrite string_app_nil_l. destruct (format_from expand kwargs InText t); reflexivity.
  - rewrite string_app_cons. cbn [format_from] in Hs |- *.
    assert (Hmap : forall st' (f : string -> string),
               f <$> format_from expand kwargs st' r = Ok s ->
               (forall a b, f a +:+ b = f (a +:+ b)) ->
               f <$> format_from expand kwargs st' (r +:+ t)
               = String.append s <$> format_from expand kwargs InText t).
    { intros st' f Hf Hassoc.
      destruct (format_from expand kwargs st' r) as [s'|e] eqn:Hr; [|discriminate].
      injection Hf as <-. rewrite (IH _ _ Hr), result_fmap_compose.
      apply result_fmap_ext. intros a. symmetry. apply Hassoc. }
    destruct (step st c) as [st'|c'|name conversion spec|e].
    + now apply IH.
    + now apply Hmap.
    + destruct (output_field expand kwargs name conversion spec) as [v|e];
        [|discriminate].
      apply Hmap; [exact Hs|]. intros a b. apply string_app_assoc.
    + discriminate.
Qed.

Lemma string_app_snoc (a s : string) (c : ascii) :
  (a +:+ String c "") +:+ s = a +:+ String c s.
Proof. now rewrite string_app_assoc. Qed.

(** *** Reading a replacement field *)

(** The name of a field is collected up to the character that ends it. *)
Lemma format_from_field_name `{object_model} (expand : string -> result string)
    (kwargs : list (string * string)) (s : string) :
  forall (inside : bool) (acc t : string),
    field_name_ok inside s = true ->
    format_from expand kwargs (if inside then InBrackets acc else InField acc) (s +:+ t)
    = format_from expand kwargs (InField (acc +:+ s)) t.
Proof.
  induction s as [|c r IH]; intros inside acc t Hok.
  - destruct inside; [discriminate|]. now rewrite string_app_nil_l, string_app_nil_r.
  - rewrite string_app_cons, <- string_app_snoc. cbn [field_name_ok] in Hok.
    destruct inside; cbn [format_from step].
    + destruct (Ascii.eqb c "]"); cbn [negb] in Hok.
      * exact (IH false _ t Hok).
      * exact (IH true _ t Hok).
    + unfold name_step.
      destruct (Ascii.eqb c "{"); [discriminate|].
      destruct (Ascii.eqb c "}"); [discriminate|].
      destruct (Ascii.eqb c ":"); [discriminate|].
      destruct (Ascii.eqb c "!"); [discriminate|]. cbn [orb] in Hok.
      destruct (Ascii.eqb c "[").
      * exact (IH true _ t Hok).
      * exact (IH false _ t Hok).
Qed.

(** So is its format specification, up to the brace that closes the
    field. *)
Lemma format_from_spec_text `{object_model} (expand : string -> result string)
    (kwargs : list (string * string)) (name : string) (conversion : option ascii)
    (s : string) :
  forall (nested : nat) (acc t : string),
    spec_ok nested s = true ->
    format_from expand kwargs (InSpec name conversion acc nested) (s +:+ t)
    = format_from expand kwargs (InSpec name conversion (acc +:+ s) 0) t.
Proof.
  induction s as [|c r IH]; intros nested acc t Hok.
  - cbn [spec_ok] in Hok. apply Nat.eqb_eq in Hok as ->.
    now rewrite string_app_nil_l, string_app_nil_r.
  - rewrite string_app_cons, <- string_app_snoc. cbn [spec_ok] in Hok.
    cbn [format_from step].
    destruct (Ascii.eqb c "{"); [exact (IH _ _ t Hok)|].
    destruct (Ascii.eqb c "}"); [|exact (IH _ _ t Hok)].
    destruct nested as [|n]; [discriminate|]. exact (IH _ _ t Hok).
Qed.

(** Behind the brace that opens it, a field that does not start with a
    brace is read as from inside its name. *)
Lemma format_from_after_open `{object_model} (expand : string -> result string)
    (kwargs : list (string * string)) (c : ascii) (r : string) :
  Ascii.eqb c "{" = false ->
  format_from expand kwargs AfterOpen (String c r)
  = format_from expand kwargs (InField "") (String c r).
Proof. intros Hc. cbn [format_from step]. now rewrite Hc. Qed.

(** A replacement field is replaced by what [output_field] gives for its
    name, conversion and format specification; then the text behind its
    closing brace is read. *)
Lemma format_from_field_text `{object_model} (expand : string -> result string)
    (kwargs : list (string * string)) (f : replacement_field) (rest : string) :
  field_ok f = true ->
  format_from expand kwargs InText (String "{" (field_text f +:+ String "}" rest))
  = v ← output_field expand kwargs (rf_name f) (rf_conversion f) (default "" (rf_spec f));
    String.append v <$> format_from expand kwargs InText rest.
Proof.
  destruct f as [name conversion spec]. unfold field_ok, field_text.
  cbn [rf_name rf_conversion rf_spec]. intros Hok.
  apply andb_prop in Hok as [Hname Hspec].
  change (format_from expand kwargs InText
            (String "{" ((name +:+ conversion_text conversion +:+ spec_text spec)
                         +:+ String "}" rest)))
    with (format_from expand kwargs AfterOpen
            ((name +:+ conversion_text conversion +:+ spec_text spec)
             +:+ String "}" rest)).
  assert (Hopen : format_from expand kwargs AfterOpen
                    ((name +:+ conversion_text conversion +:+ spec_text spec)
                     +:+ String "}" rest)
                  = format_from expand kwargs (InField "")
                      ((name +:+ conversion_text conversion +:+ spec_text spec)
                       +:+ String "}" rest)).
  { destruct name as [|c r].
    - destruct conversion, spec; reflexivity.
    - rewrite !string_app_cons. apply format_from_after_open.
      cbn [field_name_ok] in Hname. destruct (Ascii.eqb c "{"); [discriminate|reflexivity]. }
  rewrite Hopen, !string_app_assoc.
  rewrite (format_from_field_name expand kwargs name false "" _ Hname), string_app_nil_l.
  destruct conversion as [c|], spec as [s|]; cbn [conversion_text spec_text default].
  - rewrite !string_app_cons, !string_app_nil_l.
    change (format_from expand kwargs (InField name)
              (String "!" (String c (String ":" (s +:+ String "}" rest)))))
      with (format_from expand kwargs (InSpec name (Some c) "" 0) (s +:+ String "}" rest)).
    rewrite (format_from_spec_text expand kwargs name (Some c) s 0 "" _ Hspec).
    reflexivity.
  - rewrite !string_app_cons, !string_app_nil_l. reflexivity.
  - rewrite !string_app_cons, !string_app_nil_l.
    change (format_from expand kwargs (InField name) (String ":" (s +:+ String "}" rest)))
      with (format_from expand kwargs (InSpec name None "" 0) (s +:+ String "}" rest)).
    rewrite (format_from_spec_text expand kwargs name None s 0 "" _ Hspec).
    reflexivity.
  - rewrite !string_app_nil_l. reflexivity.
Qed.

(** *** Plain fields *)

Lemma plain_char_inv (c : ascii) :
  plain_char c = true ->
  Ascii.eqb c "{" = false /\ Ascii.eqb c "}" = false /\ starts_field_suffix c = false.
Proof.
  unfold plain_char. destruct (Ascii.eqb c "{"), (Ascii.eqb c "}"), (starts_field_suffix c);
    simpl; intros Hc; try discriminate; auto.
Qed.

Lemma plain_chars_field_name (name : string) :
  plain_chars name = true -> field_name_ok false name = true.
Proof.
  induction name as [|c r IH]; [reflexivity|].
  cbn [plain_chars field_name_ok]. intros Hp. apply andb_prop in Hp as [Hc Hr].
  apply plain_char_inv in Hc as (-> & -> & Hs). unfold starts_field_suffix in Hs.
  destruct (Ascii.eqb c "."), (Ascii.eqb c "["), (Ascii.eqb c "!"), (Ascii.eqb c ":");
    try discriminate. now apply IH.
Qed.

Lemma plain_chars_split_first (name : string) :
  plain_chars name = true -> split_first name = (name, "").
Proof.
  induction name as [|c r IH]; [reflexivity|].
  cbn [plain_chars split_first]. intros Hp. apply andb_prop in Hp as [Hc Hr].
  apply plain_char_inv in Hc as (_ & _ & Hs). unfold starts_field_suffix in Hs.
  destruct (Ascii.eqb c "."), (Ascii.eqb c "["); try discriminate.
  cbn [orb]. now rewrite (IH Hr).
Qed.

(** A field that is a plain name, without conversion and specification,
    is replaced by the keyword argument of that name. *)
Lemma output_field_plain `{object_model} (expand : string -> result string)
    (kwargs : list (string * string)) (name : string) :
  plain_chars name = true ->
  output_field expand kwargs name None "" = field_value kwargs name.
Proof.
  intros Hp. unfold output_field, converted_object, field_object.
  rewrite (plain_chars_split_first name Hp).
  destruct (field_value kwargs name); reflexivity.
Qed.

(** The replacement field [{name}] at the start of a template. *)
Lemma format_from_placeholder `{object_model} (expand : string -> result string)
    (kwargs : list (string * string)) (name rest : string) :
  plain_chars name = true ->
  format_from expand kwargs InText (String "{" (name +:+ String "}" rest))
  = v ← field_value kwargs name;
    String.append v <$> format_from expand kwargs InText rest.
Proof.
  intros Hp.
  pose proof (format_from_field_text expand kwargs
                (mk_replacement_field name None None) rest) as Hf.
  unfold field_text, field_ok in Hf. cbn [rf_name rf_conversion rf_spec] in Hf.
  cbn [conversion_text spec_text default spec_ok Nat.eqb] in Hf.
  rewrite !string_app_nil_r, andb_true_r in Hf.
  rewrite (Hf (plain_chars_field_name name Hp)), (output_field_plain expand kwargs name Hp).
  reflexivity.
Qed.

Lemma string_eqb_neq (a b : string) : a <> b -> String.eqb a b = false.
Proof. intros Hab. now apply String.eqb_neq. Qed.

Lemma kwargs_get_None (kwargs : list (string * string)) (name : string) :
  name ∉ map fst kwargs -> kwargs_get kwargs name = None.
Proof.
  induction kwargs as [|[k v] rest IH]; intros Hn; [reflexivity|].
  cbn [kwargs_get]. rewrite string_eqb_neq.
  - apply IH. intros Hin. apply Hn. cbn [map]. now right.
  - intros ->. apply Hn. cbn [map fst]. left.
Qed.

(** A keyword name that the path namer does not pass is a [KeyError]. *)
Lemma field_value_unknown (post : Post) (name : string) :
  keyword_name name = true ->
  name ∉ recognized_placeholders ->
  field_value (post_kwargs post) name = Raise (KeyError name).
Proof.
  unfold keyword_name. intros Hk Hn.
  apply andb_prop in Hk as [Hne Hint].
  unfold field_value.
  destruct (get_integer name); try discriminate.
  destruct (String.eqb name ""); [discriminate|].
  now rewrite (kwargs_get_None (post_kwargs post) name Hn).
Qed.

(** The name is looked up before anything else of the field is: when the
    lookup fails, so does the field, with the same exception. *)
Lemma output_field_lookup_fails `{object_model} (expand : string -> result string)
    (kwargs : list (string * string)) (f : replacement_field) (e : exn) :
  field_value kwargs (first_name f) = Raise e ->
  output_field expand kwargs (rf_name f) (rf_conversion f) (default "" (rf_spec f))
  = Raise e.
Proof.
  unfold first_name, output_field, converted_object, field_object.
  destruct (split_first (rf_name f)) as [first rest]. cbn [fst].
  now intros ->.
Qed.

Lemma has_open_brace_app (a b : string) : has_open_brace (a +:+ String "{" b) = true.
Proof.
  induction a as [|c r IH]; [reflexivity|].
  rewrite string_app_cons. cbn [has_open_brace]. rewrite IH. apply orb_true_r.
Qed.

(** A template that renders up to a replacement field whose name is no
    keyword argument ends with the [KeyError] of that name. The field
    stands in the template itself, with whatever links, conversion and
    format specification, or in the format specification of a field whose
    value is found and converted. *)
Lemma str_format_unknown_field `{object_model} (post : Post) (template name : string) :
  keyword_name name = true ->
  name ∉ recognized_placeholders ->
  (exists before f rest rendered,
      template = before +:+ String "{" (field_text f +:+ String "}" rest)
      /\ str_format before (post_kwargs post) = Ok rendered
      /\ field_ok f = true
      /\ first_name f = name)
  \/ (exists before outer v spec_before spec_rendered f spec_rest rest rendered,
      template = before +:+ String "{" (field_text outer +:+ String "}" rest)
      /\ str_format before (post_kwargs post) = Ok rendered
      /\ field_ok outer = true
      /\ converted_object (post_kwargs post) (rf_name outer) (rf_conversion outer) = Ok v
      /\ rf_spec outer
         = Some (spec_before +:+ String "{" (field_text f +:+ String "}" spec_rest))
      /\ format_spec (post_kwargs post) spec_before = Ok spec_rendered
      /\ field_ok f = true
      /\ first_name f = name) ->
  str_format template (post_kwargs post) = Raise (KeyError name).
Proof.
  intros Hk Hn Hshape.
  assert (Hlookup : forall f, first_name f = name ->
            field_value (post_kwargs post) (first_name f) = Raise (KeyError name)).
  { intros f ->. now apply field_value_unknown. }
  destruct Hshape as [(before & f & rest & rendered & -> & Hb & Hok & Hf)
                     |(before & outer & v & spec_before & spec_rendered & f & spec_rest
                       & rest & rendered & -> & Hb & Hok & Hv & Hspec & Hsb & Hokf & Hf)];
    unfold str_format in *.
  - rewrite (format_from_app _ _ _ _ _ _ Hb), (format_from_field_text _ _ f rest Hok).
    now rewrite (output_field_lookup_fails _ _ f _ (Hlookup f Hf)).
  - rewrite (format_from_app _ _ _ _ _ _ Hb), (format_from_field_text _ _ outer rest Hok).
    unfold output_field at 1. rewrite Hv, Hspec.
    change (default "" (Some (spec_before +:+ String "{" (field_text f +:+ String "}" spec_rest))))
      with (spec_before +:+ String "{" (field_text f +:+ String "}" spec_rest)).
    rewrite has_open_brace_app. unfold format_spec in *.
    rewrite (format_from_app _ _ _ _ _ _ Hsb), (format_from_field_text _ _ f spec_rest Hokf).
    now rewrite (output_field_lookup_fails _ _ f _ (Hlookup f Hf)).
Qed.

Example str_format_user_id `{object_model} :
  str_format "{user}-{id}" (post_kwargs post_42) = Ok "alice-42".
Proof. reflexivity. Qed.

Example str_format_dates `{object_model} :
  str_format "[{published}] {title}{{{edited}}}" (post_kwargs post_42)
  = Ok "[2024-02-01] hello{}".
Proof. vm_compute. reflexivity. Qed.

Example str_format_positional `{object_model} :
  str_format "{}-{id}" (post_kwargs post_42)
  = Raise (IndexError "Replacement index 0 out of range for positional args tuple").
Proof. vm_compute. reflexivity. Qed.

Example str_format_unknown_first `{object_model} :
  str_format "{foo} }" (post_kwargs post_42) = Raise (KeyError "foo").
Proof. reflexivity. Qed.

(** The name of a field is looked up before its links, its conversion
    and its format specification are. *)
Example str_format_unknown_with_suffix `{object_model} :
  str_format "{foo:>8}" (post_kwargs post_42) = Raise (KeyError "foo")
  /\ str_format "{foo.bar}" (post_kwargs post_42) = Raise (KeyError "foo")
  /\ str_format "{foo!r}" (post_kwargs post_42) = Raise (KeyError "foo")
  /\ str_format "{foo[0]}" (post_kwargs post_42) = Raise (KeyError "foo")
  /\ str_format "{foo.}" (post_kwargs post_42) = Raise (KeyError "foo")
  /\ str_format "{foo!}}" (post_kwargs post_42) = Raise (KeyError "foo")
  /\ str_format "{a[}]}" (post_kwargs post_42) = Raise (KeyError "a")
  /\ str_format "{12x}" (post_kwargs post_42) = Raise (KeyError "12x")
  /\ str_format "{id:{foo}}" (post_kwargs post_42) = Raise (KeyError "foo")
  /\ str_format "{foo:{title:{id}}}" (post_kwargs post_42) = Raise (KeyError "foo").
Proof. repeat apply conj; reflexivity. Qed.

(** Whatever a format specification makes of a value, the field behind
    it is read once the value is rendered. *)
Example str_format_unknown_after_spec `{object_model} (rendered : string) :
  str_format "{id:>8}-" (post_kwargs post_42) = Ok rendered ->
  str_format "{id:>8}-{foo}" (post_kwargs post_42) = Raise (KeyError "foo").
Proof.
  intros Hr. apply str_format_unknown_field; [reflexivity | |].
  - vm_compute. intros Hin.
    repeat (apply elem_of_cons in Hin as [Hin|Hin]; [discriminate|]).
    now apply elem_of_nil in Hin.
  - left. exists "{id:>8}-", (mk_replacement_field "foo" None None), "", rendered.
    repeat apply conj; [reflexivity | exact Hr | reflexivity | reflexivity].
Qed.

(** A field that cannot be read ends the call before its name is looked
    up; a number is no name. *)
Example str_format_malformed_fields `{object_model} :
  str_format "{foo!rx}" (post_kwargs post_42)
  = Raise (ValueError "expected ':' after conversion specifier")
  /\ str_format "{foo!" (post_kwargs post_42)
     = Raise (ValueError "end of string while looking for conversion specifier")
  /\ str_format "{foo!r" (post_kwargs post_42)
     = Raise (ValueError "unmatched '{' in format spec")
  /\ str_format "{!}" (post_kwargs post_42)
     = Raise (ValueError "unmatched '{' in format spec")
  /\ str_format "{foo:{}" (post_kwargs post_42)
     = Raise (ValueError "unmatched '{' in format spec")
  /\ str_format "{foo{" (post_kwargs post_42)
     = Raise (ValueError "unexpected '{' in field name")
  /\ str_format "{foo[}" (post_kwargs post_42)
     = Raise (ValueError "expected '}' before end of string")
  /\ str_format "{id:}}" (post_kwargs post_42)
     = Raise (ValueError "Single '}' encountered in format string")
  /\ str_format "{99999999999999999999x}" (post_kwargs post_42)
     = Raise (ValueError "Too many decimal digits in format string")
  /\ str_format "{9223372036854775807}" (post_kwargs post_42)
     = Raise (IndexError "Replacement index 9223372036854775807 out of range for positional args tuple")
  /\ str_format "{9223372036854775808}" (post_kwargs post_42)
     = Raise (ValueError "Too many decimal digits in format string")
  /\ str_format "{.x}" (post_kwargs post_42)
     = Raise (IndexError "Replacement index 0 out of range for positional args tuple")
  /\ str_format "{title.}" (post_kwargs post_42)
     = Raise (ValueError "Empty attribute in format string")
  /\ str_format "{title[]}" (post_kwargs post_42)
     = Raise (ValueError "Empty attribute in format string")
  /\ str_format "{title[99999999999999999999]}" (post_kwargs post_42)
     = Raise (ValueError "Too many decimal digits in format string")
  /\ str_format "{id!x}" (post_kwargs post_42)
     = Raise (ValueError "Unknown conversion specifier x")
  /\ str_format "{id!}}" (post_kwargs post_42)
     = Raise (ValueError "Unknown conversion specifier }")
  /\ str_format "{id:{title:{id}}}" (post_kwargs post_42)
     = Raise (ValueError "Max string recursion exceeded")
  /\ str_format "{id!s}{id:}{id!s:}" (post_kwargs post_42) = Ok "424242".
Proof. repeat apply conj; vm_compute; reflexivity. Qed.

Example generate_post_path_name_default_config `{object_model} :
  generate_post_path_name (fun s => s) (JobConfiguration_object JobConfiguration_default)
    post_42
  = ([], Raise (AttributeError "JobConfiguration" "post_id_as_path")).
Proof. vm_compute. reflexivity. Qed.

(** C2. With [config.job] an instance of [JobConfiguration] as the class
    is declared, every call of the path namer raises [AttributeError]: the
    class has a field [post_id_as_name] and none called [post_id_as_path]
    (nor [post_dirname_format]). No name is returned, whatever the post. *)
Theorem generate_post_path_name_declared_config `{object_model}
    (sanitize_filename : string -> string) (j : JobConfiguration) (post : Post) :
  generate_post_path_name sanitize_filename (JobConfiguration_object j) post
  = ([], Raise (AttributeError "JobConfiguration" "post_id_as_path")).
Proof. reflexivity. Qed.

(** What the path namer does once [config.job] has the two options. *)
Lemma generate_post_path_name_id `{object_model} (sanitize_filename : string -> string)
    (job : py_object) (post : Post) (flag : attr_value) :
  getattr job "post_id_as_path" = Ok flag ->
  truthy flag = true \/ title post = "" ->
  generate_post_path_name sanitize_filename job post = ([], Ok (id post)).
Proof.
  intros Hf Hc. unfold generate_post_path_name. rewrite Hf.
  destruct Hc as [-> | ->]; [reflexivity|].
  now rewrite orb_true_r.
Qed.

Lemma generate_post_path_name_rendered `{object_model}
    (sanitize_filename : string -> string)
    (job : py_object) (post : Post) (flag : attr_value) (template rendered : string) :
  getattr job "post_id_as_path" = Ok flag ->
  truthy flag = false -> title post <> "" ->
  getattr job "post_dirname_format" = Ok (AStr template) ->
  str_format template (post_kwargs post) = Ok rendered ->
  generate_post_path_name sanitize_filename job post
  = ([], Ok (sanitize_filename rendered)).
Proof.
  intros Hf Hflag Ht Htpl Hr. unfold generate_post_path_name.
  rewrite Hf, Hflag, (string_eqb_neq _ _ Ht), Htpl, Hr. reflexivity.
Qed.




(** ** Canonical hasher *)

(** Induction on JSON values, with the property at hand for every item of
    a list and every value of a dictionary. *)
Lemma json_nested_ind (P : json -> Prop) :
  P JNull -> (forall b, P (JBool b)) -> (forall z, P (JInt z)) -> (forall s, P (JStr s)) ->
  (forall l, List.Forall P l -> P (JList l)) ->
  (forall d, List.Forall (fun kv => P (snd kv)) d -> P (JDict d)) ->
  forall v, P v.
Proof.
  intros Hn Hb Hi Hs Hl Hd.
  fix IH 1. intros [| b | z | s | l | d].
  - exact Hn.
  - apply Hb.
  - apply Hi.
  - apply Hs.
  - apply Hl. induction l as [|x l IHl]; constructor; [apply IH | exact IHl].
  - apply Hd. induction d as [|[k x] d IHd]; constructor; [apply IH | exact IHd].
Qed.

Lemma pjson_nested_ind (P : pjson -> Prop) :
  P PNull -> (forall b, P (PBool b)) -> (forall z, P (PInt z)) -> (forall s, P (PStr s)) ->
  (forall l, List.Forall P l -> P (PList l)) ->
  forall v, P v.
Proof.
  intros Hn Hb Hi Hs Hl.
  fix IH 1. intros [| b | z | s | l].
  - exact Hn.
  - apply Hb.
  - apply Hi.
  - apply Hs.
  - apply Hl. induction l as [|x l IHl]; constructor; [apply IH | exact IHl].
Qed.

(** SHA-256 on the test messages of FIPS 180: the empty message, one
    block, and two blocks. *)
Example sha256_empty :
  sha256_hexdigest ""
  = "e3b0c44298fc1c149afbf4c8996fb92427ae41e4649b934ca495991b7852b855".
Proof. vm_compute. reflexivity. Qed.

Example sha256_abc :
  sha256_hexdigest "abc"
  = "ba7816bf8f01cfea414140de5dae2223b00361a396177a9cb410ff61f20015ad".
Proof. vm_compute. reflexivity. Qed.

Example sha256_two_blocks :
  sha256_hexdigest "abcdbcdecdefdefgefghfghighijhijkijkljklmklmnlmnomnopnopq"
  = "248d6a61d20638b8e5c026930c3e6039a33ce45964ff2167f6ecedd419db06c1".
Proof. vm_compute. reflexivity. Qed.

Example round_constants_ends :
  length round_constants = 64%nat
  /\ hex_word (nth 0 round_constants 0) = "428a2f98"
  /\ hex_word (nth 63 round_constants 0) = "c67178f2"
  /\ hex_words initial_state
     = "6a09e667bb67ae853c6ef372a54ff53a510e527f9b05688c1f83d9ab5be0cd19".
Proof. vm_compute. auto. Qed.

(** A scalar is hashed through [str] and UTF-8: the text [h] followed by
    the code point 233. *)
Example json_hash_latin1_text :
  json_hash (JStr (String "h" (String (ascii_of_N 233) ""))) false
  = Ok ("7dfbe0eab96510b11c9a2671d83019cd52953211294db5f917ffa0b7cc84f534",
        JStr (String "h" (String (ascii_of_N 233) ""))).
Proof. vm_compute. reflexivity. Qed.

Example json_hash_scalars :
  json_digest JNull false
  = Ok "dc937b59892604f5a86ac96936cd7ff09e25f18ae6b758e8014a24c7fa039e91"
  /\ json_digest (JBool true) true
     = Ok "3cbc87c7681f34db4617feaa2c8801931bc5e42d8d0f560e756dd4cd92885f18"
  /\ json_digest (JInt (-12)) false
     = Ok "7ed00270e394c3e190d18a977f5d0e1ed889bdc03a637e8fe35f00946841b0bf".
Proof. vm_compute. auto. Qed.

(** The loops inside [substitute] are [sort_list] and [hash_dict]. *)
Lemma substitute_list (sorted_list : bool) (l : list json) :
  substitute sorted_list (JList l)
  = (fun rl => PList (fst rl)) <$> sort_list sorted_list l.
Proof.
  unfold sort_list. cbn [substitute].
  destruct (map_result (substitute sorted_list) l) as [l'|e]; [|reflexivity].
  simpl. destruct sorted_list; [|reflexivity].
  destruct (py_sorted key_lt l'); reflexivity.
Qed.

Lemma substitute_dict (sorted_list : bool) (d : list (string * json)) :
  substitute sorted_list (JDict d)
  = (fun hd => PStr ("dict-" +:+ fst hd)) <$> hash_dict sorted_list d.
Proof.
  unfold hash_dict. cbn [substitute].
  change (fun kv : string * json => pair (fst kv) <$> substitute sorted_list (snd kv))
    with (substitute_item sorted_list).
  destruct (map_result (substitute_item sorted_list) d) as [d'|e]; reflexivity.
Qed.

(** The digest as a function of what the substitution leaves. *)
Lemma json_digest_list (sorted_list : bool) (l : list json) :
  json_digest (JList l) sorted_list
  = (fun p => sha256_of_text (dumps p)) <$> substitute sorted_list (JList l).
Proof.
  rewrite substitute_list. unfold json_digest, json_hash, hash_json, hash_list.
  destruct (sort_list sorted_list l) as [[r l']|e]; reflexivity.
Qed.

Lemma json_digest_dict (sorted_list : bool) (d : list (string * json)) :
  json_digest (JDict d) sorted_list
  = (fun d' => sha256_of_text (dumps_dict d'))
      <$> map_result (substitute_item sorted_list) d.
Proof.
  unfold json_digest, json_hash, hash_json, hash_dict.
  destruct (map_result (substitute_item sorted_list) d) as [d'|e]; reflexivity.
Qed.

Lemma to_json_not_dict (p : pjson) (x : list (string * json)) : to_json p <> JDict x.
Proof. destruct p; discriminate. Qed.

(** C4. [json_hash] writes into its argument: a dictionary that stands
    directly in a list or in a dictionary is overwritten by the string
    ["dict-" + digest]. Whenever [json_hash] returns for such an
    argument, the argument is no longer what it was. *)
Theorem json_hash_overwrites_argument (v after : json) (sorted_list : bool) (h : string) :
  holds_dict v ->
  json_hash v sorted_list = Ok (h, after) ->
  after <> v.
Proof.
  unfold json_hash, hash_json. destruct v as [| | | | l | d]; cbn [holds_dict]; try contradiction.
  - intros [x Hx]. destruct (hash_list sorted_list l) as [[h' l']|e]; [|discriminate].
    simpl. intros [= _ <-] [= Heq]. rewrite <- Heq in Hx.
    apply in_map_iff in Hx as (p & Hp & _). exact (to_json_not_dict p x Hp).
  - intros (k & x & Hx). destruct (hash_dict sorted_list d) as [[h' d']|e]; [|discriminate].
    simpl. intros [= _ <-] [= Heq]. rewrite <- Heq in Hx.
    apply in_map_iff in Hx as ([k' p] & Hp & _). injection Hp as _ Hp.
    exact (to_json_not_dict p x Hp).
Qed.

Example json_hash_nested_sample :
  json_hash nested_sample false
  = Ok ("8020ecc7f5ba71214fbea57ae053ea8396d249cd45ada8eab22d0a0070882120",
        JDict [("a", JStr "dict-cae1fd1cafc3a224720d8b52c3615332619526ae2526b2cd7afb72a7405ee526")]).
Proof. vm_compute. reflexivity. Qed.

Lemma json_hash_overwrites_argument_witness :
  json_hash nested_sample false
  = Ok ("8020ecc7f5ba71214fbea57ae053ea8396d249cd45ada8eab22d0a0070882120",
        JDict [("a", JStr "dict-cae1fd1cafc3a224720d8b52c3615332619526ae2526b2cd7afb72a7405ee526")])
  /\ JDict [("a", JStr "dict-cae1fd1cafc3a224720d8b52c3615332619526ae2526b2cd7afb72a7405ee526")]
     <> nested_sample.
Proof.
  split; [exact json_hash_nested_sample|].
  apply (json_hash_overwrites_argument nested_sample _ false
           "8020ecc7f5ba71214fbea57ae053ea8396d249cd45ada8eab22d0a0070882120").
  - exists "a", [("b", JInt 1)]. left. reflexivity.
  - exact json_hash_nested_sample.
Defined.

(** The same for a list in a list when sorting is on: the inner list is
    replaced by its sorted copy. *)
Example json_hash_overwrites_nested_list :
  snd <$> json_hash (JList [JList [JInt 2; JInt 1]]) true
  = Ok (JList [JList [JInt 1; JInt 2]]).
Proof. vm_compute. reflexivity. Qed.

(** A second call with the other policy therefore hashes what the first
    call left behind, not the original value. *)
Example json_hash_after_sorted_call :
  json_digest (JList [JList [JInt 2; JInt 1]]) false
  <> json_digest (JList [JList [JInt 1; JInt 2]]) false.
Proof. vm_compute. discriminate. Qed.

(** C7. With the order-insensitive policy, a list that holds two lists
    whose first unequal items are an [int] and a [str] cannot be sorted:
    [json_hash] raises [TypeError] and produces no digest. *)
Theorem json_hash_unorderable_raises :
  json_hash (JList [JList [JInt 1]; JList [JStr "a"]]) true
  = Raise (TypeError "'<' not supported between instances of 'str' and 'int'").
Proof. vm_compute. reflexivity. Qed.

(** *** Sorting under a strict total order *)

Section SortingFacts.
Context {A : Type}.
Variable lt : A -> A -> result bool.
Variable dom : list A.
Hypothesis Hord : strict_total_on lt dom.

Lemma lt_false_of_chain (x y z : A) :
  x ∈ dom -> y ∈ dom -> z ∈ dom ->
  lt x y = Ok true -> lt z y = Ok false -> lt z x = Ok false.
Proof.
  intros Hx Hy Hz Hxy Hzy.
  destruct (sto_defined lt dom Hord z x Hz Hx) as [[|] Hzx]; [|exact Hzx].
  rewrite (sto_trans lt dom Hord z x y Hz Hx Hy Hzx Hxy) in Hzy. discriminate.
Qed.

Lemma insert_sorted_spec (x : A) (acc : list A) :
  x ∈ dom -> (forall y, y ∈ acc -> y ∈ dom) -> ascending lt acc ->
  exists acc', insert_sorted lt x acc = Ok acc'
               /\ Permutation (x :: acc) acc' /\ ascending lt acc'.
Proof.
  intros Hx. induction acc as [|y r IH]; intros Hsub Hasc.
  - exists [x]. repeat split; [reflexivity | repeat constructor].
  - assert (Hy : y ∈ dom) by (apply Hsub; left).
    inversion Hasc as [|? ? Hyr Hr]; subst.
    cbn [insert_sorted].
    destruct (sto_defined lt dom Hord x y Hx Hy) as [[|] Hxy]; rewrite Hxy.
    + exists (x :: y :: r). repeat split; [reflexivity|].
      constructor; [|exact Hasc].
      constructor; [exact (sto_asym lt dom Hord x y Hx Hy Hxy)|].
      rewrite List.Forall_forall in Hyr |- *. intros z Hz.
      apply (lt_false_of_chain x y z); auto.
      * apply Hsub. right. now apply list_elem_of_In.
      * exact (Hyr z Hz).
    + destruct IH as (acc' & Hins & Hperm & Hasc'); [intros z Hz; apply Hsub; now right | exact Hr |].
      exists (y :: acc'). rewrite Hins. repeat split.
      * etransitivity; [apply perm_swap|]. now apply perm_skip.
      * constructor; [|exact Hasc'].
        rewrite List.Forall_forall in Hyr |- *. intros z Hz.
        apply (Permutation_in _ (Permutation_sym Hperm)) in Hz as [<- | Hz];
          [exact Hxy | exact (Hyr z Hz)].
Qed.

Lemma sort_into_spec (l acc : list A) :
  (forall y, y ∈ l -> y ∈ dom) -> (forall y, y ∈ acc -> y ∈ dom) -> ascending lt acc ->
  exists s, sort_into lt acc l = Ok s /\ Permutation (acc ++ l) s /\ ascending lt s.
Proof.
  revert acc; induction l as [|x r IH]; intros acc Hl Hacc Hasc.
  - exists acc. rewrite app_nil_r. repeat split; [reflexivity | exact Hasc].
  - destruct (insert_sorted_spec x acc) as (acc' & Hins & Hperm & Hasc');
      [apply Hl; left | exact Hacc | exact Hasc |].
    cbn [sort_into]. rewrite Hins.
    destruct (IH acc') as (s & Hs & Hp & Ha);
      [intros y Hy; apply Hl; now right | | exact Hasc' |].
    { intros y Hy. apply list_elem_of_In in Hy.
      apply (Permutation_in _ (Permutation_sym Hperm)) in Hy as [<- | Hy];
        [apply Hl; left | apply Hacc; now apply list_elem_of_In]. }
    exists s. repeat split; [exact Hs | | exact Ha].
    etransitivity; [|exact Hp].
    etransitivity; [apply Permutation_sym, Permutation_middle|].
    exact (Permutation_app_tail r Hperm).
Qed.

(** Two ascending lt lists with the same elements are the same list. *)
Lemma ascending_unique (s1 s2 : list A) :
  (forall y, y ∈ s1 -> y ∈ dom) ->
  ascending lt s1 -> ascending lt s2 -> Permutation s1 s2 -> s1 = s2.
Proof.
  revert s2; induction s1 as [|a t1 IH]; intros s2 Hsub H1 H2 Hp.
  - now apply Permutation_nil in Hp.
  - destruct s2 as [|b t2]; [now apply Permutation_sym, Permutation_nil in Hp|].
    inversion H1 as [|? ? Ha1 Ht1]; subst. inversion H2 as [|? ? Hb2 Ht2]; subst.
    assert (Hab : a = b).
    { assert (Ha : In a (b :: t2)) by (apply (Permutation_in _ Hp); now left).
      assert (Hb : In b (a :: t1)) by (apply (Permutation_in _ (Permutation_sym Hp)); now left).
      destruct Ha as [Ha | Ha]; [now symmetry|].
      destruct Hb as [Hb | Hb]; [exact Hb|].
      rewrite List.Forall_forall in Ha1, Hb2.
      apply (sto_antisym lt dom Hord a b).
      - apply Hsub. left.
      - apply Hsub. right. now apply list_elem_of_In.
      - exact (Hb2 a Ha).
      - exact (Ha1 b Hb). }
    subst b. f_equal. apply IH; auto.
    + intros y Hy. apply Hsub. now right.
    + now apply Permutation_cons_inv in Hp.
Qed.

(** [sorted] gives the same list for every arrangement of the elements. *)
Lemma py_sorted_permutation (l1 l2 : list A) :
  (forall y, y ∈ l1 -> y ∈ dom) -> Permutation l1 l2 ->
  exists s, py_sorted lt l1 = Ok s /\ py_sorted lt l2 = Ok s /\ Permutation l1 s.
Proof.
  intros Hsub Hp. unfold py_sorted.
  assert (Hsub2 : forall y, y ∈ l2 -> y ∈ dom).
  { intros y Hy. apply Hsub. apply list_elem_of_In.
    apply (Permutation_in _ (Permutation_sym Hp)). now apply list_elem_of_In. }
  destruct (sort_into_spec l1 []) as (s1 & Hs1 & Hp1 & Ha1);
    [exact Hsub | intros y Hy; now apply elem_of_nil in Hy | constructor |].
  destruct (sort_into_spec l2 []) as (s2 & Hs2 & Hp2 & Ha2);
    [exact Hsub2 | intros y Hy; now apply elem_of_nil in Hy | constructor |].
  simpl in Hp1, Hp2.
  assert (s1 = s2) as <-.
  { apply ascending_unique; auto.
    - intros y Hy. apply Hsub. apply list_elem_of_In.
      apply (Permutation_in _ (Permutation_sym Hp1)). now apply list_elem_of_In.
    - etransitivity; [apply Permutation_sym, Hp1|]. etransitivity; [exact Hp|exact Hp2]. }
  exists s1. auto.
Qed.

End SortingFacts.

(** *** Substitution, item by item *)

Lemma map_result_Forall2 {A B : Type} (f : A -> result B) (l : list A) (ys : list B) :
  map_result f l = Ok ys <-> Forall2 (fun x y => f x = Ok y) l ys.
Proof.
  revert ys; induction l as [|x r IH]; intros ys; cbn [map_result].
  - split; [intros [= <-]; constructor | intros H; inversion H; reflexivity].
  - split.
    + destruct (f x) as [y|e] eqn:Hx; [|discriminate].
      destruct (map_result f r) as [zs|e] eqn:Hr; [|discriminate].
      intros [= <-]. constructor; [exact Hx | now apply IH].
    + intros H. inversion H as [|? y ? zs Hx Hr]; subst.
      rewrite Hx. apply IH in Hr. now rewrite Hr.
Qed.

Lemma map_result_total {A B : Type} (f : A -> result B) (l : list A) :
  List.Forall (fun x => exists y, f x = Ok y) l -> exists ys, map_result f l = Ok ys.
Proof.
  induction 1 as [|x r [y Hy] _ [ys Hys]]; cbn [map_result].
  - now exists [].
  - rewrite Hy, Hys. now exists (y :: ys).
Qed.

Lemma map_result_permutation {A B : Type} (f : A -> result B) (l1 l2 : list A) (p1 : list B) :
  Permutation l1 l2 -> map_result f l1 = Ok p1 ->
  exists p2, map_result f l2 = Ok p2 /\ Permutation p1 p2.
Proof.
  intros Hp; revert p1; induction Hp as [|x l l' _ IH|x y l|l l' l'' _ IH1 _ IH2]; intros p1 H.
  - exists p1. split; [exact H|]. injection H as <-. constructor.
  - cbn [map_result] in H |- *.
    destruct (f x) as [z|e]; [|discriminate].
    destruct (map_result f l) as [zs|e]; [|discriminate]. injection H as <-.
    destruct (IH zs eq_refl) as (p2 & -> & Hperm).
    exists (z :: p2). split; [reflexivity | now constructor].
  - cbn [map_result] in H |- *.
    destruct (f y) as [zy|e]; [|discriminate].
    destruct (f x) as [zx|e]; [|discriminate].
    destruct (map_result f l) as [zs|e]; [|discriminate]. injection H as <-.
    exists (zx :: zy :: zs). split; [reflexivity | apply perm_swap].
  - destruct (IH1 p1 H) as (p2 & H2 & Hp12).
    destruct (IH2 p2 H2) as (p3 & H3 & Hp23).
    exists p3. split; [exact H3 | now transitivity p2].
Qed.

(** Only the result of [f] on an item matters. *)
Lemma map_result_replace {A B : Type} (f : A -> result B) (before after : list A) (x x' : A) :
  f x = f x' -> map_result f (before ++ x :: after) = map_result f (before ++ x' :: after).
Proof.
  intros H. induction before as [|a r IH]; cbn [map_result app].
  - now rewrite H.
  - now rewrite IH.
Qed.

Lemma substitute_plug (sorted_list : bool) (c : position) (v1 v2 : json) :
  substitute sorted_list v1 = substitute sorted_list v2 ->
  substitute sorted_list (plug c v1) = substitute sorted_list (plug c v2).
Proof.
  intros H. induction c as [|before inner IH after|before key inner IH after];
    cbn [plug substitute].
  - exact H.
  - now rewrite (map_result_replace _ before after _ _ IH).
  - rewrite (map_result_replace
               (fun kv : string * json => pair (fst kv) <$> substitute sorted_list (snd kv))
               before after (key, plug inner v1) (key, plug inner v2)); [reflexivity|].
    cbn [fst snd]. now rewrite IH.
Qed.

Lemma json_digest_plug (sorted_list : bool) (c : position) (v1 v2 : json) :
  substitute sorted_list v1 = substitute sorted_list v2 ->
  json_digest v1 sorted_list = json_digest v2 sorted_list ->
  json_digest (plug c v1) sorted_list = json_digest (plug c v2) sorted_list.
Proof.
  intros Hs Hd. destruct c as [|before inner after|before key inner after]; cbn [plug].
  - exact Hd.
  - rewrite !json_digest_list.
    change (JList (before ++ plug inner v1 :: after))
      with (plug (InItem before inner after) v1).
    change (JList (before ++ plug inner v2 :: after))
      with (plug (InItem before inner after) v2).
    now rewrite (substitute_plug sorted_list (InItem before inner after) v1 v2 Hs).
  - rewrite !json_digest_dict. unfold substitute_item.
    rewrite (map_result_replace
               (fun kv : string * json => pair (fst kv) <$> substitute sorted_list (snd kv))
               before after (key, plug inner v1) (key, plug inner v2)); [reflexivity|].
    cbn [fst snd]. now rewrite (substitute_plug sorted_list inner v1 v2 Hs).
Qed.

(** With sorting on, a list and its rearrangements are substituted by the
    same sorted list. *)
Lemma substitute_sorted_permutation (l1 l2 : list json) (p1 : list pjson) :
  Permutation l1 l2 ->
  map_result (substitute true) l1 = Ok p1 ->
  strict_total_on key_lt p1 ->
  exists s, substitute true (JList l1) = Ok (PList s)
            /\ substitute true (JList l2) = Ok (PList s)
            /\ Permutation p1 s.
Proof.
  intros Hp H1 Hord.
  destruct (map_result_permutation _ _ _ _ Hp H1) as (p2 & H2 & Hp12).
  destruct (py_sorted_permutation key_lt p1 Hord p1 p2) as (s & Hs1 & Hs2 & Hps);
    [auto | exact Hp12 |].
  exists s. cbn [substitute]. rewrite H1, H2, Hs1, Hs2. auto.
Qed.

(** Without sorting, substitution never raises. *)
Lemma substitute_unsorted_total (v : json) : exists p, substitute false v = Ok p.
Proof.
  induction v as [| b | z | s | l IH | d IH] using json_nested_ind;
    cbn [substitute]; eauto.
  - destruct (map_result_total (substitute false) l IH) as [ys ->]. simpl. eauto.
  - destruct (map_result_total
                (fun kv : string * json => pair (fst kv) <$> substitute false (snd kv)) d)
      as [ys ->]; [|eauto].
    eapply List.Forall_impl; [|exact IH].
    intros [k x] [p Hp]. cbn [fst snd] in *. rewrite Hp. simpl. eauto.
Qed.

Lemma json_digest_unsorted_list (l : list json) :
  exists q, Forall2 (fun x y => substitute false x = Ok y) l q
            /\ json_digest (JList l) false = Ok (sha256_of_text (dumps (PList q))).
Proof.
  destruct (map_result_total (substitute false) l) as [q Hq].
  { apply List.Forall_forall. intros x _. apply substitute_unsorted_total. }
  exists q. split; [now apply map_result_Forall2|].
  rewrite json_digest_list. cbn [substitute]. now rewrite Hq.
Qed.

(** *** [json.dumps] determines the value *)

Lemma read_escaped_escape_char (c : ascii) (rest : string) :
  read_escaped (escape_char c +:+ rest) = Some (c, rest).
Proof.
  destruct c as [[] [] [] [] [] [] [] []]; reflexivity.
Qed.

Lemma read_escaped_quote (rest : string) : read_escaped (String dquote rest) = None.
Proof. reflexivity. Qed.

Lemma escape_inj (s1 s2 r1 r2 : string) :
  escape s1 +:+ String dquote r1 = escape s2 +:+ String dquote r2 ->
  s1 = s2 /\ r1 = r2.
Proof.
  revert s2; induction s1 as [|c1 s1 IH]; intros [|c2 s2]; cbn [escape];
    rewrite ?string_app_nil_l, ?string_app_assoc; intros H.
  - injection H as <-. auto.
  - apply (f_equal read_escaped) in H.
    rewrite read_escaped_quote, read_escaped_escape_char in H. discriminate.
  - apply (f_equal read_escaped) in H.
    rewrite read_escaped_quote, read_escaped_escape_char in H. discriminate.
  - apply (f_equal read_escaped) in H.
    rewrite !read_escaped_escape_char in H. injection H as <- H.
    destruct (IH _ H) as [<- <-]. auto.
Qed.

Lemma json_string_inj (s1 s2 r1 r2 : string) :
  json_string s1 +:+ r1 = json_string s2 +:+ r2 -> s1 = s2 /\ r1 = r2.
Proof.
  unfold json_string. rewrite !string_app_cons, !string_app_assoc, !string_app_cons,
    !string_app_nil_l.
  intros H. injection H as H. now apply escape_inj.
Qed.

Lemma pretty_N_char_digit (x : N) : (x < 10)%N -> is_digit (pretty_N_char x) = true.
Proof.
  intros H.
  assert (Hall : forallb (fun k => is_digit (pretty_N_char (N.of_nat k))) (seq 0 10) = true)
    by reflexivity.
  rewrite forallb_forall in Hall. rewrite <- (N2Nat.id x).
  apply Hall, in_seq. lia.
Qed.

Lemma pretty_N_go_digits (x : N) (s : string) :
  all_digits s = true -> all_digits (pretty_N_go x s) = true.
Proof.
  revert s. induction (N.lt_wf_0 x) as [x _ IH]. intros s Hs.
  destruct (decide (0 < x)%N) as [Hx|Hx].
  - rewrite pretty_N_go_step by exact Hx. apply IH.
    + apply N.div_lt; lia.
    + cbn [all_digits]. rewrite pretty_N_char_digit, Hs; [reflexivity|].
      apply N.mod_lt. lia.
  - assert (x = 0%N) as -> by lia. now rewrite pretty_N_go_0.
Qed.

Lemma pretty_N_go_nonempty (x : N) (s : string) :
  s <> "" -> pretty_N_go x s <> "".
Proof.
  revert s. induction (N.lt_wf_0 x) as [x _ IH]. intros s Hs.
  destruct (decide (0 < x)%N) as [Hx|Hx].
  - rewrite pretty_N_go_step by exact Hx. apply IH; [apply N.div_lt; lia | discriminate].
  - assert (x = 0%N) as -> by lia. now rewrite pretty_N_go_0.
Qed.

Lemma pretty_N_digits (n : N) : all_digits (pretty n) = true /\ pretty n <> "".
Proof.
  unfold pretty, pretty_N. destruct (decide (n = 0%N)) as [->|Hn].
  - split; [reflexivity | discriminate].
  - split; [now apply pretty_N_go_digits|].
    rewrite pretty_N_go_step by lia. apply pretty_N_go_nonempty. discriminate.
Qed.

(** A run of digits ends where the text goes on with something else. *)
Lemma digits_split (d1 d2 r1 r2 : string) :
  all_digits d1 = true -> all_digits d2 = true ->
  starts_with_digit r1 = false -> starts_with_digit r2 = false ->
  d1 +:+ r1 = d2 +:+ r2 -> d1 = d2 /\ r1 = r2.
Proof.
  revert d2; induction d1 as [|c1 d1 IH]; intros [|c2 d2] H1 H2 Hr1 Hr2;
    rewrite ?string_app_cons, ?string_app_nil_l; intros H.
  - auto.
  - subst r1. cbn [all_digits] in H2. apply andb_prop in H2 as [Hc _].
    cbn [starts_with_digit] in Hr1. congruence.
  - subst r2. cbn [all_digits] in H1. apply andb_prop in H1 as [Hc _].
    cbn [starts_with_digit] in Hr2. congruence.
  - injection H as <- H. cbn [all_digits] in H1, H2.
    apply andb_prop in H1 as [_ H1]. apply andb_prop in H2 as [_ H2].
    destruct (IH d2 H1 H2 Hr1 Hr2 H) as [<- <-]. auto.
Qed.

(** The text of an integer: a sign, maybe, and digits. *)
Lemma pretty_Z_shape (z : Z) :
  pretty z = (if Z.ltb z 0 then "-" else "") +:+ pretty (Z.abs_N z).
Proof. destruct z; reflexivity. Qed.

Lemma first_char_digits (d r : string) :
  all_digits d = true -> d <> "" ->
  exists c, first_char (d +:+ r) = Some c /\ is_digit c = true.
Proof.
  destruct d as [|c d]; [congruence|]. cbn [all_digits]. intros H _.
  apply andb_prop in H as [H _]. exists c. rewrite string_app_cons. auto.
Qed.

Lemma pretty_Z_inj_cont (z1 z2 : Z) (r1 r2 : string) :
  starts_with_digit r1 = false -> starts_with_digit r2 = false ->
  pretty z1 +:+ r1 = pretty z2 +:+ r2 -> z1 = z2 /\ r1 = r2.
Proof.
  intros Hr1 Hr2. rewrite !pretty_Z_shape, !string_app_assoc.
  destruct (pretty_N_digits (Z.abs_N z1)) as [Hd1 Hn1].
  destruct (pretty_N_digits (Z.abs_N z2)) as [Hd2 Hn2].
  destruct (Z.ltb_spec z1 0) as [Hz1|Hz1], (Z.ltb_spec z2 0) as [Hz2|Hz2];
    rewrite ?string_app_cons, ?string_app_nil_l; intros H.
  - injection H as H.
    destruct (digits_split _ _ _ _ Hd1 Hd2 Hr1 Hr2 H) as [Hp <-].
    apply (inj pretty) in Hp. split; [lia | reflexivity].
  - exfalso. destruct (first_char_digits _ r2 Hd2 Hn2) as (c & Hc & Hdig).
    rewrite <- H in Hc. injection Hc as <-. discriminate.
  - exfalso. destruct (first_char_digits _ r1 Hd1 Hn1) as (c & Hc & Hdig).
    rewrite H in Hc. injection Hc as <-. discriminate.
  - destruct (digits_split _ _ _ _ Hd1 Hd2 Hr1 Hr2 H) as [Hp <-].
    apply (inj pretty) in Hp. split; [lia | reflexivity].
Qed.

Lemma dumps_starts_like (p : pjson) (r : string) :
  exists c, first_char (dumps p +:+ r) = Some c /\ starts_like p c = true.
Proof.
  destruct p as [| [] | z | s | l]; cbn [dumps starts_like];
    try (eexists; split; reflexivity).
  rewrite pretty_Z_shape, string_app_assoc.
  destruct (pretty_N_digits (Z.abs_N z)) as [Hd Hn].
  destruct (Z.ltb z 0).
  - exists "-"%char. split; reflexivity.
  - rewrite string_app_nil_l.
    destruct (first_char_digits _ r Hd Hn) as (c & Hc & Hdig).
    exists c. now rewrite Hc, Hdig.
Qed.

Lemma starts_like_kind (p q : pjson) (c : ascii) :
  starts_like p c = true -> starts_like q c = true -> same_kind p q.
Proof.
  destruct p as [| [] | z1 | s1 | l1], q as [| [] | z2 | s2 | l2];
    cbn [starts_like same_kind]; auto;
    intros H1 H2;
    repeat match goal with
           | H : Ascii.eqb c _ = true |- _ => apply Ascii.eqb_eq in H; subst c
           end;
    try discriminate;
    repeat match goal with
           | H : _ || _ = true |- _ => apply orb_prop in H as [H|H]
           | H : Ascii.eqb _ _ = true |- _ => apply Ascii.eqb_eq in H; try subst c
           end;
    try discriminate; subst; discriminate.
Qed.

Lemma dumps_same_kind (p q : pjson) (r1 r2 : string) :
  dumps p +:+ r1 = dumps q +:+ r2 -> same_kind p q.
Proof.
  intros H.
  destruct (dumps_starts_like p r1) as (c & Hc & Hp).
  destruct (dumps_starts_like q r2) as (c' & Hc' & Hq).
  rewrite H, Hc' in Hc. injection Hc as ->.
  exact (starts_like_kind p q c Hp Hq).
Qed.

Lemma dumps_not_bracket (p : pjson) (r rest : string) :
  dumps p +:+ r <> String "]" rest.
Proof.
  intros H. destruct (dumps_starts_like p r) as (c & Hc & Hp).
  rewrite H in Hc. injection Hc as <-. destruct p as [| [] | | |]; discriminate.
Qed.

Lemma join_comma_cons (x : string) (rest : list string) :
  join_comma (x :: rest) = x +:+ after_first rest.
Proof.
  destruct rest; cbn [join_comma after_first]; [now rewrite string_app_nil_r | reflexivity].
Qed.

Lemma after_first_no_digit (rest : list string) (r : string) :
  starts_with_digit (after_first rest +:+ String "]" r) = false.
Proof. destruct rest; reflexivity. Qed.

(** The items of a list can be read off its serialization, given that
    each item can. *)
Lemma dumps_items_inj (l1 : list pjson) :
  List.Forall (fun p => forall q r1 r2,
                 starts_with_digit r1 = false -> starts_with_digit r2 = false ->
                 dumps p +:+ r1 = dumps q +:+ r2 -> p = q /\ r1 = r2) l1 ->
  forall l2 r1 r2,
    join_comma (map dumps l1) +:+ String "]" r1
    = join_comma (map dumps l2) +:+ String "]" r2 ->
    l1 = l2 /\ r1 = r2.
Proof.
  induction 1 as [|x t1 Hx _ IH]; intros [|y t2] r1 r2 H; cbn [map] in H.
  - cbn [join_comma] in H. rewrite !string_app_nil_l in H. injection H as <-. auto.
  - exfalso. rewrite join_comma_cons, string_app_assoc in H.
    cbn [join_comma] in H. rewrite string_app_nil_l in H.
    symmetry in H. exact (dumps_not_bracket _ _ _ H).
  - exfalso. rewrite join_comma_cons, string_app_assoc in H.
    cbn [join_comma] in H. rewrite string_app_nil_l in H.
    exact (dumps_not_bracket _ _ _ H).
  - rewrite !join_comma_cons, !string_app_assoc in H.
    destruct (Hx y _ _ (after_first_no_digit _ _) (after_first_no_digit _ _) H) as [<- Hrest].
    destruct t1 as [|a t1], t2 as [|b t2]; cbn [map after_first] in Hrest;
      rewrite ?string_app_nil_l, ?string_app_assoc, ?string_app_cons in Hrest.
    + injection Hrest as <-. auto.
    + discriminate.
    + discriminate.
    + rewrite !string_app_nil_l in Hrest. injection Hrest as Hrest.
      destruct (IH (b :: t2) r1 r2 Hrest) as [-> <-]. auto.
Qed.

(** Two values with the same serialization are the same value; this holds
    in front of any text that does not go on with a digit. *)
Lemma dumps_inj_cont (p : pjson) :
  forall q r1 r2,
    starts_with_digit r1 = false -> starts_with_digit r2 = false ->
    dumps p +:+ r1 = dumps q +:+ r2 -> p = q /\ r1 = r2.
Proof.
  induction p as [| b | z | s | l IH] using pjson_nested_ind;
    intros q r1 r2 Hr1 Hr2 H;
    pose proof (dumps_same_kind _ _ _ _ H) as Hk;
    destruct q as [| b' | z' | s' | l']; cbn [same_kind] in Hk; try contradiction.
  - cbn [dumps] in H. rewrite !string_app_cons, !string_app_nil_l in H.
    injection H as <-. auto.
  - subst b'. destruct b; cbn [dumps] in H;
      rewrite !string_app_cons, !string_app_nil_l in H; injection H as <-; auto.
  - cbn [dumps] in H. destruct (pretty_Z_inj_cont _ _ _ _ Hr1 Hr2 H) as [<- <-]. auto.
  - cbn [dumps] in H. destruct (json_string_inj _ _ _ _ H) as [<- <-]. auto.
  - cbn [dumps] in H.
    rewrite !string_app_cons, !string_app_nil_l, !string_app_assoc, !string_app_cons,
      !string_app_nil_l in H.
    injection H as H.
    destruct (dumps_items_inj l IH l' r1 r2 H) as [<- <-]. auto.
Qed.

Lemma dumps_inj (p q : pjson) : dumps p = dumps q -> p = q.
Proof.
  intros H. apply (dumps_inj_cont p q "" ""); try reflexivity.
  now rewrite !string_app_nil_r.
Qed.

(** *** Order of sequences *)

(** C8, as amended. Order-insensitive policy: let the items of a sequence
    be substituted without error, and let the sort key (type name, value)
    be a strict total order on what they are substituted by. Then the
    sequence and every rearrangement of it give the same digest, wherever
    the sequence stands in the value, and at the top a digest is produced.
    Order-sensitive policy, for any two sequences whatever: the digest of
    a sequence is the SHA-256 of the serialization of its substituted
    items in the order given, and two sequences are serialized alike only
    if their substituted items agree one by one. *)
Theorem json_hash_sequence_order :
  (forall (c : position) (l1 l2 : list json) (p1 : list pjson),
      Permutation l1 l2 ->
      map_result (substitute true) l1 = Ok p1 ->
      strict_total_on key_lt p1 ->
      json_digest (plug c (JList l1)) true = json_digest (plug c (JList l2)) true
      /\ exists h, json_digest (JList l1) true = Ok h /\ json_digest (JList l2) true = Ok h)
  /\ (forall l1 l2 : list json,
        exists q1 q2,
          Forall2 (fun x y => substitute false x = Ok y) l1 q1
          /\ Forall2 (fun x y => substitute false x = Ok y) l2 q2
          /\ json_digest (JList l1) false = Ok (sha256_of_text (dumps (PList q1)))
          /\ json_digest (JList l2) false = Ok (sha256_of_text (dumps (PList q2)))
          /\ (dumps (PList q1) = dumps (PList q2) <-> q1 = q2)).
Proof.
  split.
  - intros c l1 l2 p1 Hp H1 Hord.
    destruct (substitute_sorted_permutation l1 l2 p1 Hp H1 Hord) as (s & Hs1 & Hs2 & _).
    assert (Hd : json_digest (JList l1) true = json_digest (JList l2) true).
    { now rewrite !json_digest_list, Hs1, Hs2. }
    split.
    + apply json_digest_plug; [now rewrite Hs1, Hs2 | exact Hd].
    + exists (sha256_of_text (dumps (PList s))).
      rewrite <- Hd, json_digest_list, Hs1. auto.
  - intros l1 l2.
    destruct (json_digest_unsorted_list l1) as (q1 & Hq1 & Hd1).
    destruct (json_digest_unsorted_list l2) as (q2 & Hq2 & Hd2).
    exists q1, q2. repeat split; auto.
    + intros Hq. apply dumps_inj in Hq. now injection Hq.
    + now intros ->.
Qed.

Lemma json_hash_sequence_order_witness :
  (json_digest (JDict [("tags", JList [JInt 3; JStr "x"; JNull])]) true
   = json_digest (JDict [("tags", JList [JNull; JInt 3; JStr "x"])]) true
   /\ exists h, json_digest (JList [JInt 3; JStr "x"; JNull]) true = Ok h
                /\ json_digest (JList [JNull; JInt 3; JStr "x"]) true = Ok h)
  /\ exists q1 q2,
       Forall2 (fun x y => substitute false x = Ok y)
         [JList [JInt 1]; JList [JStr "a"]] q1
       /\ Forall2 (fun x y => substitute false x = Ok y)
            [JList [JStr "a"]; JList [JInt 1]] q2
       /\ json_digest (JList [JList [JInt 1]; JList [JStr "a"]]) false
          = Ok (sha256_of_text (dumps (PList q1)))
       /\ json_digest (JList [JList [JStr "a"]; JList [JInt 1]]) false
          = Ok (sha256_of_text (dumps (PList q2)))
       /\ (dumps (PList q1) = dumps (PList q2) <-> q1 = q2).
Proof.
  split.
  - apply (proj1 json_hash_sequence_order (InValue [] "tags" Here [])
             [JInt 3; JStr "x"; JNull] [JNull; JInt 3; JStr "x"]
             [PInt 3; PStr "x"; PNull]).
    + apply Permutation_sym. apply (Permutation_cons_append [JInt 3; JStr "x"] JNull).
    + reflexivity.
    + check_strict_total.
  - apply (proj2 json_hash_sequence_order
             [JList [JInt 1]; JList [JStr "a"]] [JList [JStr "a"]; JList [JInt 1]]).
Defined.

(** C8 as stated fails, both ways. Order-insensitive policy: [[1]] and
    [[True]] are equal for Python, so sorting leaves the two in the order
    it finds them, and the two arrangements get different digests.
    Order-sensitive policy: a dictionary is substituted by a string, and
    the same string may stand next to it; swapping the two distinct items
    changes nothing. *)
Lemma json_hash_sequence_order_fails :
  (json_digest (JList [JList [JInt 1]; JList [JBool true]]) true
     = Ok "02d37490914580f6663b01db9ae369ed50fb35c50ef0c3b26f89eca2d119e50a"
   /\ json_digest (JList [JList [JBool true]; JList [JInt 1]]) true
     = Ok "9f582066d060cc4138ce78248ffcf19a5860bc6e15d382afce6dee718ca7bae5")
  /\ (JDict [("a", JInt 1)] <> JStr ("dict-" +:+ digest_of_a1)
      /\ json_digest (JList [JDict [("a", JInt 1)]; JStr ("dict-" +:+ digest_of_a1)]) false
         = json_digest (JList [JStr ("dict-" +:+ digest_of_a1); JDict [("a", JInt 1)]]) false
      /\ is_Some (match json_digest (JList [JDict [("a", JInt 1)];
                                             JStr ("dict-" +:+ digest_of_a1)]) false with
                  | Ok h => Some h
                  | Raise _ => None
                  end)).
Proof.
  split; [split; vm_compute; reflexivity|].
  split; [discriminate|]. split; [vm_compute; reflexivity|].
  vm_compute. eexists. reflexivity.
Qed.

(** *** The shape of a digest *)

Lemma sha_round_length (s : list Z) (kw : Z * Z) :
  length s = 8%nat -> length (sha_round s kw) = 8%nat.
Proof.
  intros H. do 9 (destruct s as [|? s]; try discriminate). reflexivity.
Qed.

Lemma fold_sha_round_length (kws : list (Z * Z)) (s : list Z) :
  length s = 8%nat -> length (fold_left sha_round kws s) = 8%nat.
Proof.
  revert s; induction kws as [|kw kws IH]; intros s H; [exact H|].
  apply IH. now apply sha_round_length.
Qed.

Lemma sha_block_length (s block : list Z) :
  length s = 8%nat -> length (sha_block s block) = 8%nat.
Proof.
  intros H. unfold sha_block, zip_pairs.
  rewrite length_map, length_combine, fold_sha_round_length by exact H.
  rewrite H. reflexivity.
Qed.

Lemma sha_blocks_length (n : nat) (s words : list Z) :
  length s = 8%nat -> length (sha_blocks n s words) = 8%nat.
Proof.
  revert s words; induction n as [|n IH]; intros s words H; [exact H|].
  apply IH. now apply sha_block_length.
Qed.

Lemma hex_digit_is_hex (n : Z) : 0 <= n < 16 -> is_hex_digit (hex_digit n) = true.
Proof.
  intros H.
  assert (Hall : forallb (fun k => is_hex_digit (hex_digit (Z.of_nat k))) (seq 0 16) = true)
    by reflexivity.
  rewrite forallb_forall in Hall. rewrite <- (Z2Nat.id n) by lia.
  apply Hall, in_seq. lia.
Qed.

Lemma string_length_app (a b : string) :
  String.length (a +:+ b) = (String.length a + String.length b)%nat.
Proof.
  induction a as [|c a IH]; [reflexivity|]. rewrite string_app_cons. simpl. now rewrite IH.
Qed.

Lemma all_hex_app (a b : string) : all_hex (a +:+ b) = all_hex a && all_hex b.
Proof.
  induction a as [|c a IH]; [reflexivity|]. rewrite string_app_cons. simpl.
  now rewrite IH, andb_assoc.
Qed.

Lemma hex_word_shape (x : Z) :
  String.length (hex_word x) = 8%nat /\ all_hex (hex_word x) = true.
Proof.
  split; [reflexivity|]. unfold hex_word. cbn [fold_right all_hex].
  rewrite !hex_digit_is_hex by (apply Z.mod_pos_bound; lia). reflexivity.
Qed.

Lemma hex_words_shape (ws : list Z) :
  String.length (hex_words ws) = (8 * length ws)%nat /\ all_hex (hex_words ws) = true.
Proof.
  induction ws as [|x ws [IHl IHh]]; [split; reflexivity|].
  destruct (hex_word_shape x) as [Hl Hh].
  cbn [hex_words fold_right]. fold (hex_words ws).
  rewrite string_length_app, all_hex_app, Hl, Hh, IHl, IHh. split; [simpl; lia | reflexivity].
Qed.

(** A digest is 64 lower-case hexadecimal digits. *)
Lemma sha256_hexdigest_shape (data : string) :
  String.length (sha256_hexdigest data) = 64%nat /\ all_hex (sha256_hexdigest data) = true.
Proof.
  unfold sha256_hexdigest.
  destruct (hex_words_shape (sha256_words (bytes_of_string data))) as [Hl Hh].
  split; [|exact Hh]. rewrite Hl. unfold sha256_words.
  now rewrite sha_blocks_length.
Qed.

(** With the order-sensitive policy [json_hash] returns for every value,
    and what it returns first is a digest of 64 hexadecimal digits. *)
Theorem json_hash_unsorted_digest (v : json) :
  exists h, json_digest v false = Ok h
            /\ String.length h = 64%nat /\ all_hex h = true.
Proof.
  assert (Hshape : forall text, String.length (sha256_of_text text) = 64%nat
                                /\ all_hex (sha256_of_text text) = true).
  { intros text. apply sha256_hexdigest_shape. }
  destruct v as [| b | z | s | l | d].
  1-4: eexists; split; [reflexivity | apply Hshape].
  - destruct (json_digest_unsorted_list l) as (q & _ & Hq).
    eexists. split; [exact Hq | apply Hshape].
  - rewrite json_digest_dict.
    destruct (substitute_unsorted_total (JDict d)) as [p Hp].
    cbn [substitute] in Hp.
    change (fun kv : string * json => pair (fst kv) <$> substitute false (snd kv))
      with (substitute_item false) in Hp.
    destruct (map_result (substitute_item false) d) as [d'|e]; [|discriminate].
    eexists. split; [reflexivity | apply Hshape].
Qed.

(** Whenever [json_hash] returns, under either order policy and for any
    value, the digest it returns is a text of 64 characters, each a digit
    or a lower-case letter from a to f. *)
Lemma json_digest_shape (v : json) (sorted_list : bool) (h : string) :
  json_digest v sorted_list = Ok h -> String.length h = 64%nat /\ all_hex h = true.
Proof.
  assert (Hshape : forall text h', Ok (sha256_of_text text) = Ok h' ->
                     String.length h' = 64%nat /\ all_hex h' = true).
  { intros text h' H. assert (h' = sha256_of_text text) as -> by congruence.
    apply sha256_hexdigest_shape. }
  destruct v as [| b | z | s | l | d].
  1-4: exact (Hshape _ h).
  - rewrite json_digest_list.
    destruct (substitute sorted_list (JList l)); [|discriminate]. exact (Hshape _ h).
  - rewrite json_digest_dict.
    destruct (map_result _ d); [|discriminate]. exact (Hshape _ h).
Qed.

(** *** Order of the keys of a dictionary *)

Lemma string_compare_lt_trans (a b c : string) :
  String.compare a b = Lt -> String.compare b c = Lt -> String.compare a c = Lt.
Proof.
  revert b c; induction a as [|x a IH]; intros [|y b] [|z c]; cbn [String.compare];
    try easy.
  unfold Ascii.compare.
  destruct (N.compare_spec (N_of_ascii x) (N_of_ascii y)) as [Hxy|Hxy|Hxy];
    destruct (N.compare_spec (N_of_ascii y) (N_of_ascii z)) as [Hyz|Hyz|Hyz];
    try easy; intros H1 H2.
  - rewrite Hxy, Hyz, N.compare_refl. now apply (IH b c).
  - rewrite Hxy. now apply N.compare_lt_iff in Hyz as ->.
  - rewrite <- Hyz. now apply N.compare_lt_iff in Hxy as ->.
  - assert (N_of_ascii x < N_of_ascii z)%N as Hxz by lia.
    now apply N.compare_lt_iff in Hxz as ->.
Qed.

Lemma str_ltb_trans (a b c : string) :
  str_ltb a b = true -> str_ltb b c = true -> str_ltb a c = true.
Proof.
  unfold str_ltb. intros H1 H2.
  destruct (String.compare a b) eqn:E1; try discriminate.
  destruct (String.compare b c) eqn:E2; try discriminate.
  now rewrite (string_compare_lt_trans a b c E1 E2).
Qed.

Lemma str_ltb_asym (a b : string) : str_ltb a b = true -> str_ltb b a = false.
Proof.
  unfold str_ltb. rewrite (String.compare_antisym a b).
  destruct (String.compare b a); simpl; congruence.
Qed.

Lemma str_ltb_antisym (a b : string) :
  str_ltb a b = false -> str_ltb b a = false -> a = b.
Proof.
  unfold str_ltb. rewrite (String.compare_antisym a b).
  destruct (String.compare b a) eqn:E; simpl; try discriminate.
  intros _ _. symmetry. now apply String.compare_eq_iff.
Qed.

Lemma NoDup_fst_item {V : Type} (d : list (string * V)) (a b : string * V) :
  NoDup (map fst d) -> a ∈ d -> b ∈ d -> fst a = fst b -> a = b.
Proof.
  induction d as [|x d IH]; cbn [map]; intros Hn Ha Hb Hk.
  - now apply elem_of_nil in Ha.
  - apply NoDup_cons in Hn as [Hx Hn].
    apply elem_of_cons in Ha as [-> | Ha]; apply elem_of_cons in Hb as [-> | Hb]; auto.
    + exfalso. apply Hx. rewrite Hk. apply list_elem_of_fmap. eauto.
    + exfalso. apply Hx. rewrite <- Hk. apply list_elem_of_fmap. eauto.
Qed.

(** The keys of a dictionary are ordered strictly. *)
Lemma item_lt_strict_total {V : Type} (d : list (string * V)) :
  NoDup (map fst d) -> strict_total_on item_lt d.
Proof.
  intros Hn. constructor; unfold item_lt.
  - intros x y _ _. eauto.
  - intros x y _ _ [= H]. f_equal. now apply str_ltb_asym.
  - intros x y Hx Hy [= H1] [= H2]. apply (NoDup_fst_item d x y Hn Hx Hy).
    now apply str_ltb_antisym.
  - intros x y z _ _ _ [= H1] [= H2]. f_equal. now apply (str_ltb_trans _ (fst y)).
Qed.

Lemma sort_items_permutation {V : Type} (d1 d2 : list (string * V)) :
  NoDup (map fst d1) -> Permutation d1 d2 -> sort_items d1 = sort_items d2.
Proof.
  intros Hn Hp. unfold sort_items.
  destruct (py_sorted_permutation item_lt d1 (item_lt_strict_total d1 Hn) d1 d2)
    as (s & -> & -> & _); auto.
Qed.

Lemma map_result_keys (sorted_list : bool) (d : list (string * json))
    (d' : list (string * pjson)) :
  map_result (substitute_item sorted_list) d = Ok d' -> map fst d' = map fst d.
Proof.
  revert d'; induction d as [|[k x] d IH]; intros d'; cbn [map_result].
  - now intros [= <-].
  - unfold substitute_item at 1. cbn [fst snd].
    destruct (substitute sorted_list x) as [y|e]; [|discriminate]. simpl.
    destruct (map_result (substitute_item sorted_list) d) as [ys|e]; [|discriminate].
    intros [= <-]. cbn [map fst]. now rewrite (IH ys eq_refl).
Qed.

(** The items of a dictionary may come in any order: what they are
    substituted by is serialized with the keys sorted. *)
Lemma dumps_dict_permutation (sorted_list : bool) (d1 d2 : list (string * json))
    (p1 : list (string * pjson)) :
  NoDup (map fst d1) -> Permutation d1 d2 ->
  map_result (substitute_item sorted_list) d1 = Ok p1 ->
  exists p2, map_result (substitute_item sorted_list) d2 = Ok p2
             /\ dumps_dict p2 = dumps_dict p1.
Proof.
  intros Hn Hp H1.
  destruct (map_result_permutation _ _ _ _ Hp H1) as (p2 & H2 & Hp12).
  exists p2. split; [exact H2|]. unfold dumps_dict.
  rewrite (sort_items_permutation p1 p2); [reflexivity | | exact Hp12].
  now rewrite (map_result_keys _ _ _ H1).
Qed.

Lemma substitute_dict_permutation (sorted_list : bool) (d1 d2 : list (string * json))
    (p : pjson) :
  NoDup (map fst d1) -> Permutation d1 d2 ->
  substitute sorted_list (JDict d1) = Ok p -> substitute sorted_list (JDict d2) = Ok p.
Proof.
  intros Hn Hp. cbn [substitute].
  change (fun kv : string * json => pair (fst kv) <$> substitute sorted_list (snd kv))
    with (substitute_item sorted_list).
  destruct (map_result (substitute_item sorted_list) d1) as [p1|e] eqn:H1; [|discriminate].
  destruct (dumps_dict_permutation sorted_list d1 d2 p1 Hn Hp H1) as (p2 & -> & ->).
  auto.
Qed.

(** An exception inside a value ends the hashing of the whole value. *)
Lemma map_result_raise {A B : Type} (f : A -> result B) (before after : list A)
    (x : A) (e : exn) :
  f x = Raise e -> exists e', map_result f (before ++ x :: after) = Raise e'.
Proof.
  intros H. induction before as [|a r [e' IH]]; cbn [map_result app].
  - rewrite H. eauto.
  - destruct (f a); [rewrite IH|]; eauto.
Qed.

Lemma substitute_plug_raise (sorted_list : bool) (c : position) (v : json) (e : exn) :
  substitute sorted_list v = Raise e ->
  exists e', substitute sorted_list (plug c v) = Raise e'.
Proof.
  intros H. induction c as [|before inner [e' IH] after|before key inner [e' IH] after];
    cbn [plug substitute].
  - eauto.
  - destruct (map_result_raise (substitute sorted_list) before after _ _ IH) as [e'' ->].
    eauto.
  - destruct (map_result_raise
                (fun kv : string * json => pair (fst kv) <$> substitute sorted_list (snd kv))
                before after (key, plug inner v) e') as [e'' ->]; [|eauto].
    cbn [fst snd]. now rewrite IH.
Qed.

Lemma json_digest_of_substitute (sorted_list : bool) (v : json) (h : string) :
  json_digest v sorted_list = Ok h -> exists p, substitute sorted_list v = Ok p.
Proof.
  destruct v as [| b | z | s | l | d]; cbn [substitute]; eauto.
  - rewrite json_digest_list.
    destruct (substitute sorted_list (JList l)) eqn:E; [eauto | discriminate].
  - rewrite json_digest_dict. unfold substitute_item.
    destruct (map_result _ d); [eauto | discriminate].
Qed.

(** The digest does not depend on the order in which a dictionary holds
    its items, wherever the dictionary stands in the value: if hashing
    returns for one order it returns the same digest for any other. *)
Theorem json_hash_key_order (sorted_list : bool) (c : position)
    (d1 d2 : list (string * json)) (h : string) :
  NoDup (map fst d1) -> Permutation d1 d2 ->
  json_digest (plug c (JDict d1)) sorted_list = Ok h ->
  json_digest (plug c (JDict d2)) sorted_list = Ok h.
Proof.
  intros Hn Hp H.
  destruct (substitute sorted_list (JDict d1)) as [p|e] eqn:Hs.
  - rewrite <- H. symmetry. apply json_digest_plug.
    + rewrite Hs. symmetry. now apply (substitute_dict_permutation _ d1 d2).
    + rewrite !json_digest_dict.
      cbn [substitute] in Hs.
      change (fun kv : string * json => pair (fst kv) <$> substitute sorted_list (snd kv))
        with (substitute_item sorted_list) in Hs.
      destruct (map_result (substitute_item sorted_list) d1) as [p1|e] eqn:H1;
        [|discriminate].
      destruct (dumps_dict_permutation sorted_list d1 d2 p1 Hn Hp H1) as (p2 & -> & Hd).
      simpl. now rewrite Hd.
  - exfalso.
    destruct (json_digest_of_substitute _ _ _ H) as [p Hp'].
    destruct (substitute_plug_raise sorted_list c _ _ Hs) as [e' He]. congruence.
Qed.

Lemma json_hash_key_order_witness :
  json_digest (JList [JDict [("a", JList [JInt 1; JInt 2]); ("b", JNull)]]) true
  = Ok "3e33a6046600dd732d077c7cefcc49af2ef113e76f789edd688dc59a106187bd".
Proof.
  apply (json_hash_key_order true (InItem [] Here [])
           [("b", JNull); ("a", JList [JInt 1; JInt 2])]
           [("a", JList [JInt 1; JInt 2]); ("b", JNull)]).
  - apply (bool_decide_unpack _). vm_compute. exact I.
  - apply perm_swap.
  - vm_compute. reflexivity.
Defined.

(** *** The sort key on values that are not lists *)

Lemma type_str_compare (a b : pjson) :
  String.compare (type_str a) (type_str b) = Z.compare (kind_rank a) (kind_rank b).
Proof. destruct a, b; reflexivity. Qed.

Lemma type_str_eqb (a b : pjson) :
  String.eqb (type_str a) (type_str b) = Z.eqb (kind_rank a) (kind_rank b).
Proof. destruct a, b; reflexivity. Qed.

Lemma str_ltb_irrefl (s : string) : str_ltb s s = false.
Proof.
  unfold str_ltb. pose proof (String.compare_antisym s s) as H.
  destruct (String.compare s s); try reflexivity; discriminate.
Qed.

Lemma key_lt_scalar (a b : pjson) :
  is_scalar a = true -> is_scalar b = true -> key_lt a b = Ok (scalar_ltb a b).
Proof.
  intros Ha Hb. unfold key_lt. rewrite type_str_eqb.
  unfold str_ltb at 1. rewrite type_str_compare.
  destruct a as [| x | x | x | ?], b as [| y | y | y | ?]; try discriminate;
    cbn [kind_rank Z.eqb Z.compare Pos.eqb Pos.compare Pos.compare_cont
         py_eq py_lt as_int scalar_ltb Z.ltb]; try reflexivity.
  - destruct x, y; reflexivity.
  - destruct (Z.eqb_spec x y) as [->|]; [now rewrite Z.ltb_irrefl | reflexivity].
  - destruct (String.eqb_spec x y) as [->|]; [now rewrite str_ltb_irrefl | reflexivity].
Qed.

Lemma scalar_ltb_asym (a b : pjson) :
  is_scalar a = true -> is_scalar b = true ->
  scalar_ltb a b = true -> scalar_ltb b a = false.
Proof.
  destruct a as [| x | x | x | ?], b as [| y | y | y | ?]; try discriminate;
    intros _ _; cbn; try congruence.
  - destruct x, y; cbn; congruence.
  - intros H. apply Z.ltb_lt in H. apply Z.ltb_ge. lia.
  - apply str_ltb_asym.
Qed.

Lemma scalar_ltb_antisym (a b : pjson) :
  is_scalar a = true -> is_scalar b = true ->
  scalar_ltb a b = false -> scalar_ltb b a = false -> a = b.
Proof.
  destruct a as [| x | x | x | ?], b as [| y | y | y | ?]; try discriminate;
    intros _ _; cbn; try congruence.
  - destruct x, y; cbn; congruence.
  - intros H1 H2. apply Z.ltb_ge in H1, H2. f_equal. lia.
  - intros H1 H2. f_equal. now apply str_ltb_antisym.
Qed.

Lemma scalar_ltb_trans (a b c : pjson) :
  is_scalar a = true -> is_scalar b = true -> is_scalar c = true ->
  scalar_ltb a b = true -> scalar_ltb b c = true -> scalar_ltb a c = true.
Proof.
  destruct a as [| x | x | x | ?], b as [| y | y | y | ?], c as [| z | z | z | ?];
    try discriminate; intros _ _ _; cbn; try congruence.
  - destruct x, y, z; cbn; congruence.
  - intros H1 H2. apply Z.ltb_lt in H1, H2. apply Z.ltb_lt. lia.
  - apply str_ltb_trans.
Qed.

(** On values that are not lists the sort key is a strict total order. *)
Lemma key_lt_strict_total_scalars (l : list pjson) :
  List.Forall (fun p => is_scalar p = true) l -> strict_total_on key_lt l.
Proof.
  intros Hl.
  assert (Hs : forall x, x ∈ l -> is_scalar x = true).
  { intros x Hx. rewrite List.Forall_forall in Hl. apply Hl. now apply list_elem_of_In. }
  constructor.
  - intros x y Hx Hy. rewrite key_lt_scalar by auto. eauto.
  - intros x y Hx Hy. rewrite !key_lt_scalar by auto. intros [= H]. f_equal.
    apply scalar_ltb_asym; auto.
  - intros x y Hx Hy. rewrite !key_lt_scalar by auto. intros [= H1] [= H2].
    apply scalar_ltb_antisym; auto.
  - intros x y z Hx Hy Hz. rewrite !key_lt_scalar by auto. intros [= H1] [= H2]. f_equal.
    apply (scalar_ltb_trans x y z); auto.
Qed.

(** With the order-insensitive policy, a sequence that holds no sequences
    (its items are [None], booleans, integers, strings and dictionaries;
    floats are not among the values of this model) gets the same digest
    in every arrangement, wherever it stands, provided its dictionaries
    can be hashed. *)
Theorem json_hash_flat_sequence (c : position) (l1 l2 : list json) (p1 : list pjson) :
  Permutation l1 l2 ->
  map_result (substitute true) l1 = Ok p1 ->
  List.Forall (fun x => match x with JList _ => False | _ => True end) l1 ->
  json_digest (plug c (JList l1)) true = json_digest (plug c (JList l2)) true
  /\ exists h, json_digest (JList l1) true = Ok h /\ json_digest (JList l2) true = Ok h.
Proof.
  intros Hp H1 Hflat.
  assert (Hsc : List.Forall (fun p => is_scalar p = true) p1).
  { apply map_result_Forall2 in H1. clear Hp.
    induction H1 as [|x y l p Hxy _ IH]; [constructor|].
    inversion Hflat as [|? ? Hx Hl]; subst. constructor; [|now apply IH].
    destruct x as [| | | | |d]; cbn [substitute] in Hxy; try (injection Hxy as <-; reflexivity).
    - contradiction.
    - destruct (map_result _ d); [injection Hxy as <-; reflexivity | discriminate]. }
  pose proof (key_lt_strict_total_scalars p1 Hsc) as Hord.
  destruct (substitute_sorted_permutation l1 l2 p1 Hp H1 Hord) as (s & Hs1 & Hs2 & _).
  assert (Hd : json_digest (JList l1) true = json_digest (JList l2) true).
  { now rewrite !json_digest_list, Hs1, Hs2. }
  split.
  - apply json_digest_plug; [now rewrite Hs1, Hs2 | exact Hd].
  - exists (sha256_of_text (dumps (PList s))).
    rewrite <- Hd, json_digest_list, Hs1. auto.
Qed.

Lemma json_hash_flat_sequence_witness :
  json_digest (JList [JInt 3; JDict [("k", JBool true)]; JStr "x"; JNull]) true
  = json_digest (JList [JNull; JStr "x"; JInt 3; JDict [("k", JBool true)]]) true
  /\ exists h,
       json_digest (JList [JInt 3; JDict [("k", JBool true)]; JStr "x"; JNull]) true = Ok h
       /\ json_digest (JList [JNull; JStr "x"; JInt 3; JDict [("k", JBool true)]]) true = Ok h.
Proof.
  refine (json_hash_flat_sequence Here
            [JInt 3; JDict [("k", JBool true)]; JStr "x"; JNull]
            [JNull; JStr "x"; JInt 3; JDict [("k", JBool true)]] _ _ eq_refl _).
  - apply Permutation_sym.
    change [JNull; JStr "x"; JInt 3; JDict [("k", JBool true)]]
      with ([JNull; JStr "x"] ++ [JInt 3; JDict [("k", JBool true)]]).
    etransitivity; [apply Permutation_app_comm|]. simpl.
    do 2 apply perm_skip. apply perm_swap.
  - repeat constructor.
Defined.

(** *** Templates with recognized placeholders only *)

Lemma format_from_text `{object_model} (expand : string -> result string)
    (kwargs : list (string * string)) (text rest : string) :
  no_braces text = true ->
  format_from expand kwargs InText (text +:+ rest)
  = String.append text <$> format_from expand kwargs InText rest.
Proof.
  induction text as [|c r IH]; intros Ht.
  - rewrite string_app_nil_l. destruct (format_from expand kwargs InText rest); reflexivity.
  - cbn [no_braces] in Ht. apply andb_prop in Ht as [Hc Hr].
    apply negb_true_iff, orb_false_elim in Hc as [Ho Hcl].
    rewrite string_app_cons. cbn [format_from step]. rewrite Ho, Hcl, (IH Hr).
    destruct (format_from expand kwargs InText rest); reflexivity.
Qed.

Lemma format_from_doubled_brace `{object_model} (expand : string -> result string)
    (kwargs : list (string * string)) (rest : string) :
  format_from expand kwargs InText (String "{" (String "{" rest))
  = String "{" <$> format_from expand kwargs InText rest
  /\ format_from expand kwargs InText (String "}" (String "}" rest))
     = String "}" <$> format_from expand kwargs InText rest.
Proof. split; reflexivity. Qed.

Lemma recognized_plain_chars (name : string) :
  name ∈ recognized_placeholders -> plain_chars name = true.
Proof.
  unfold recognized_placeholders. intros Hin.
  repeat (apply elem_of_cons in Hin as [-> | Hin]; [reflexivity|]).
  now apply elem_of_nil in Hin.
Qed.

Lemma recognized_field_value (post : Post) (name : string) :
  name ∈ recognized_placeholders ->
  field_value (post_kwargs post) name
  = Ok (default "" (kwargs_get (post_kwargs post) name)).
Proof.
  unfold recognized_placeholders. intros Hin.
  repeat (apply elem_of_cons in Hin as [-> | Hin]; [reflexivity|]).
  now apply elem_of_nil in Hin.
Qed.

(** Such a template always renders, part by part. *)
Lemma str_format_recognized `{object_model} (post : Post) (parts : list template_part) :
  List.Forall part_ok parts ->
  str_format (template_text parts) (post_kwargs post)
  = Ok (rendered_text (post_kwargs post) parts).
Proof.
  unfold str_format. induction 1 as [|p parts Hp _ IH]; [reflexivity|].
  cbn [template_text rendered_text fold_right].
  fold (template_text parts). fold (rendered_text (post_kwargs post) parts).
  destruct p as [text | | | name]; cbn [part_ok part_text part_value] in *.
  - rewrite (format_from_text _ _ _ _ Hp), IH. reflexivity.
  - rewrite !string_app_cons, string_app_nil_l.
    rewrite (proj1 (format_from_doubled_brace _ _ _)), IH. reflexivity.
  - rewrite !string_app_cons, string_app_nil_l.
    rewrite (proj2 (format_from_doubled_brace _ _ _)), IH. reflexivity.
  - rewrite string_app_cons, string_app_assoc, string_app_cons, string_app_nil_l.
    rewrite (format_from_placeholder _ _ _ _ (recognized_plain_chars _ Hp)).
    rewrite (recognized_field_value _ _ Hp), IH. reflexivity.
Qed.

(** Once [config.job] has the two options, and the template is written
    with recognized placeholders only, the path namer returns a name and
    logs nothing: the post id as it is when the identifier-as-name option
    is on or the title is empty, and else the sanitized rendering of the
    template. *)
Theorem generate_post_path_name_recognized `{object_model}
    (sanitize_filename : string -> string)
    (job : py_object) (post : Post) (flag : bool) (parts : list template_part) :
  getattr job "post_id_as_path" = Ok (ABool flag) ->
  getattr job "post_dirname_format" = Ok (AStr (template_text parts)) ->
  List.Forall part_ok parts ->
  generate_post_path_name sanitize_filename job post
  = ([], Ok (if flag || String.eqb (title post) "" then id post
             else sanitize_filename (rendered_text (post_kwargs post) parts))).
Proof.
  intros Hf Ht Hparts. unfold generate_post_path_name. rewrite Hf. cbn [truthy].
  destruct (flag || String.eqb (title post) ""); [reflexivity|].
  now rewrite Ht, (str_format_recognized post parts Hparts).
Qed.

Lemma generate_post_path_name_recognized_witness :
  exists name : string, name = "alice-42" /\
    forall om : object_model,
      generate_post_path_name (fun s => s) (job_with_naming false "{user}-{id}") post_42
      = ([], Ok name).
Proof.
  exists "alice-42". split; [reflexivity|]. intros om.
  apply (@generate_post_path_name_recognized om (fun s => s)
           (job_with_naming false "{user}-{id}") post_42 false
           [TField "user"; TText "-"; TField "id"]).
  - reflexivity.
  - reflexivity.
  - repeat constructor; cbn [part_ok]; unfold recognized_placeholders; set_solver.
Defined.

(** ** More on the time window filter *)

Lemma match_post_time_passing (p : Post) (start_time end_time : option datetime) :
  unpublished_at_bound start_time end_time p = false ->
  _match_post_time p start_time end_time = Ok (within_window start_time end_time p).
Proof.
  unfold unpublished_at_bound. destruct (published p) as [t|] eqn:Hp.
  - intros _. now apply (match_post_time_present p t).
  - destruct start_time, end_time; try discriminate. reflexivity.
Qed.

Lemma match_post_time_stopping (p : Post) (start_time end_time : option datetime) :
  unpublished_at_bound start_time end_time p = true ->
  exists msg, _match_post_time p start_time end_time = Raise (TypeError msg).
Proof.
  unfold unpublished_at_bound, _match_post_time.
  destruct (published p); [discriminate|].
  destruct start_time, end_time; try discriminate; intros _; simpl; eauto.
Qed.

(** What the time window filter yields on any input. It works through the
    posts up to the first one that has no publication time while a bound
    is set; of the posts before that one it yields those within the
    window, in their order; at that post it stops with a [TypeError], and
    if there is none it ends normally. *)
Theorem filter_posts_by_time_run (post_list : list Post)
    (start_time end_time : option datetime) :
  exists before rest,
    post_list = before ++ rest
    /\ List.Forall (fun p => unpublished_at_bound start_time end_time p = false) before
    /\ fst (filter_posts_by_time post_list start_time end_time)
       = List.filter (within_window start_time end_time) before
    /\ match rest with
       | [] => snd (filter_posts_by_time post_list start_time end_time) = None
       | p :: _ =>
           unpublished_at_bound start_time end_time p = true
           /\ exists msg,
                snd (filter_posts_by_time post_list start_time end_time)
                = Some (TypeError msg)
       end.
Proof.
  induction post_list as [|x l (before & rest & Hl & Hb & Hy & Hr)].
  - exists [], []. repeat split; constructor.
  - destruct (unpublished_at_bound start_time end_time x) eqn:Hx.
    + exists [], (x :: l). destruct (match_post_time_stopping _ _ _ Hx) as [msg Hm].
      cbn [filter_posts_by_time]. rewrite Hm.
      repeat split; [constructor | exact Hx | eauto].
    + exists (x :: before), rest. cbn [filter_posts_by_time].
      rewrite (match_post_time_passing _ _ _ Hx).
      destruct (filter_posts_by_time l start_time end_time) as [ys stop].
      cbn [fst snd] in *. repeat split.
      * now rewrite Hl.
      * now constructor.
      * cbn [List.filter]. rewrite <- Hy.
        destruct (within_window start_time end_time x); reflexivity.
      * exact Hr.
Qed.

(** Without bounds nothing is compared: the filter yields its input as it
    is, posts without publication time included. *)
Theorem filter_posts_by_time_no_bounds (post_list : list Post) :
  filter_posts_by_time post_list None None = (post_list, None).
Proof.
  induction post_list as [|x l IH]; [reflexivity|].
  cbn [filter_posts_by_time]. now rewrite IH.
Qed.

Lemma filter_posts_by_time_all_within (l : list Post) (start_time end_time : option datetime) :
  List.Forall (fun p => within_window start_time end_time p = true) l ->
  filter_posts_by_time l start_time end_time = (l, None).
Proof.
  induction 1 as [|x l Hx _ IH]; [reflexivity|].
  cbn [filter_posts_by_time]. rewrite match_post_time_passing, Hx, IH; [reflexivity|].
  unfold unpublished_at_bound. unfold within_window in Hx.
  destruct (published x); [reflexivity|].
  destruct start_time, end_time; try reflexivity; simpl in Hx; discriminate.
Qed.

Lemma filter_posts_by_time_yields_within (post_list : list Post)
    (start_time end_time : option datetime) :
  List.Forall (fun p => within_window start_time end_time p = true)
    (fst (filter_posts_by_time post_list start_time end_time)).
Proof.
  induction post_list as [|x l IH]; [constructor|].
  cbn [filter_posts_by_time].
  destruct (unpublished_at_bound start_time end_time x) eqn:Hx.
  - destruct (match_post_time_stopping _ _ _ Hx) as [msg ->]. constructor.
  - rewrite (match_post_time_passing _ _ _ Hx).
    destruct (filter_posts_by_time l start_time end_time) as [ys stop].
    cbn [fst] in *.
    destruct (within_window start_time end_time x) eqn:Hw; [now constructor | exact IH].
Qed.

(** Filtering what the filter has yielded, with the same window, yields
    all of it again and never raises, whatever the first run ended with. *)
Theorem filter_posts_by_time_again (post_list : list Post)
    (start_time end_time : option datetime) :
  filter_posts_by_time (fst (filter_posts_by_time post_list start_time end_time))
    start_time end_time
  = (fst (filter_posts_by_time post_list start_time end_time), None).
Proof.
  apply filter_posts_by_time_all_within, filter_posts_by_time_yields_within.
Qed.

(** The bounds are inclusive: a post published exactly at the start and
    at the end of the window matches. *)
Theorem match_post_time_at_bounds (p : Post) (t : datetime) :
  published p = Some t ->
  _match_post_time p (Some t) (Some t) = Ok true.
Proof.
  intros Hp. rewrite (match_post_time_present p t _ _ Hp).
  unfold within_window. rewrite Hp.
  now rewrite dt_geb_not_ltb, dt_leb_not_gtb, dt_gtb_ltb, dt_ltb_irrefl.
Qed.

Lemma match_post_time_at_bounds_witness :
  _match_post_time post_feb (Some dt_2024_02_01) (Some dt_2024_02_01) = Ok true.
Proof. apply (match_post_time_at_bounds post_feb dt_2024_02_01). reflexivity. Defined.

(** A window whose end lies before its start holds no post: of posts that
    all have a publication time the filter yields none. *)
Theorem filter_posts_by_time_inverted (post_list : list Post) (s e : datetime) :
  dt_ltb e s = true ->
  List.Forall (fun p => is_Some (published p)) post_list ->
  filter_posts_by_time post_list (Some s) (Some e) = ([], None).
Proof.
  intros Hes. induction 1 as [|x l [t Ht] _ IH]; [reflexivity|].
  cbn [filter_posts_by_time]. rewrite (match_post_time_present x t _ _ Ht), IH.
  unfold within_window. rewrite Ht, dt_geb_not_ltb, dt_leb_not_gtb, dt_gtb_ltb.
  destruct (dt_ltb t s) eqn:Hts; [reflexivity|].
  destruct (dt_ltb e t) eqn:Het; [reflexivity|].
  rewrite (dt_le_lt_trans t e s Het Hes) in Hts. discriminate.
Qed.

Lemma filter_posts_by_time_inverted_witness :
  filter_posts_by_time [post_jan; post_feb; post_mar]
    (Some dt_2024_03_01) (Some dt_2024_01_01)
  = ([], None).
Proof.
  apply (filter_posts_by_time_inverted [post_jan; post_feb; post_mar]
           dt_2024_03_01 dt_2024_01_01).
  - reflexivity.
  - repeat constructor; eexists; reflexivity.
Defined.

(** ** More on the index differ *)

Lemma write_posts_lookup_other (k : string) (l : list Post) (m : gmap string Post) :
  (forall q, q ∈ l -> id q <> k) -> write_posts m l !! k = m !! k.
Proof.
  revert m; induction l as [|p l IH]; intros m Hl; simpl; [reflexivity|].
  rewrite IH by (intros q Hq; apply Hl; now right).
  apply lookup_insert_ne. apply Hl. left.
Qed.

Lemma write_posts_lookup_written (Phi : Post -> Prop) (p : Post)
    (l : list Post) (m : gmap string Post) :
  p ∈ l ->
  (forall q, q ∈ l -> id q = id p -> Phi q) ->
  exists s, write_posts m l !! id p = Some s /\ Phi s.
Proof.
  intros Hp Hphi. apply list_elem_of_split in Hp as (l1 & l2 & ->).
  rewrite write_posts_app. simpl.
  apply write_posts_lookup_inv.
  - intros q Hq. apply Hphi. apply elem_of_app. right. now right.
  - exists p. rewrite lookup_insert_eq. split; [reflexivity|].
    apply Hphi; [|reflexivity]. apply elem_of_app. right. left.
Qed.

Lemma NoDup_ids_same (l : list Post) (p q : Post) :
  NoDup (map id l) -> p ∈ l -> q ∈ l -> id q = id p -> q = p.
Proof.
  induction l as [|x l IH]; simpl; intros Hnd Hp Hq Hid.
  - now apply elem_of_nil in Hp.
  - apply NoDup_cons in Hnd as [Hx Hnd].
    apply elem_of_cons in Hp as [->|Hp]; apply elem_of_cons in Hq as [->|Hq].
    + reflexivity.
    + exfalso. apply Hx. rewrite <- Hid. apply list_elem_of_In, in_map, list_elem_of_In, Hq.
    + exfalso. apply Hx. rewrite Hid. apply list_elem_of_In, in_map, list_elem_of_In, Hp.
    + now apply IH.
Qed.

Lemma write_posts_keyed_by_id (l : list Post) (m : gmap string Post) :
  keyed_by_id m -> keyed_by_id (write_posts m l).
Proof.
  revert m; induction l as [|p l IH]; intros m Hm; simpl; [exact Hm|].
  apply IH. intros k q. destruct (decide (id p = k)) as [<-|Hk].
  - rewrite lookup_insert_eq. now intros [= <-].
  - rewrite lookup_insert_ne by done. apply Hm.
Qed.

(** What a returning differ run has produced, read off the heap. *)
Lemma filter_posts_by_indices_returns (posts_arg changed : list Post)
    (indices updated : loc) (h h' : heap) :
  filter_posts_by_indices posts_arg indices h = (Ok (changed, updated), h') ->
  exists ci,
    h !! indices = Some ci
    /\ Forall (fun x => edited_after_index (posts ci) x
                        = Ok (accepted (edited_after_index (posts ci)) x)) posts_arg
    /\ changed = List.filter (accepted (edited_after_index (posts ci))) posts_arg
    /\ h' !! updated
       = Some (mkCreatorIndices (creator_id ci) (creator_service ci)
                 (write_posts (posts ci) changed)).
Proof.
  intros H. destruct (h !! indices) as [ci|] eqn:Hr.
  - rewrite (filter_posts_by_indices_unfold _ _ _ ci Hr) in H.
    destruct (py_filter _ _) as [new_list|e] eqn:Hf; [|discriminate].
    injection H as <- <- <-.
    destruct (py_filter_inv _ _ _ Hf) as [Hret Hl].
    exists ci. repeat split; try assumption. apply lookup_insert_eq.
  - unfold filter_posts_by_indices in H. rewrite Hr in H. discriminate.
Qed.

(** The updated index of a returning run, id by id. An id of no changed
    post keeps what the input index had for it (a record or nothing);
    the id of a changed post holds a changed post of that id; and when
    the changed posts have distinct ids, each of them is found under its
    own id. The creator fields are those of the input index. *)
Theorem filter_posts_by_indices_updated (posts_arg changed : list Post)
    (indices updated : loc) (h h' : heap) :
  filter_posts_by_indices posts_arg indices h = (Ok (changed, updated), h') ->
  exists ci ci',
    h !! indices = Some ci /\ h' !! updated = Some ci'
    /\ creator_id ci' = creator_id ci
    /\ creator_service ci' = creator_service ci
    /\ (forall k, (forall q, q ∈ changed -> id q <> k) ->
                  posts ci' !! k = posts ci !! k)
    /\ (forall p, p ∈ changed ->
                  exists q, posts ci' !! id p = Some q /\ q ∈ changed /\ id q = id p)
    /\ (NoDup (map id changed) ->
        forall p, p ∈ changed -> posts ci' !! id p = Some p).
Proof.
  intros H. destruct (filter_posts_by_indices_returns _ _ _ _ _ _ H)
    as (ci & Hr & _ & _ & Hu).
  eexists ci, _. split; [exact Hr|]. split; [exact Hu|]. cbn [creator_id creator_service posts].
  split; [reflexivity|]. split; [reflexivity|]. split; [|split].
  - intros k Hk. now apply write_posts_lookup_other.
  - intros p Hp.
    apply (write_posts_lookup_written (fun q => q ∈ changed /\ id q = id p)); [exact Hp|].
    intros q Hq Hid. now split.
  - intros Hnd p Hp.
    destruct (write_posts_lookup_written (fun q => q = p) p changed (posts ci) Hp)
      as (s & Hs & ->); [|exact Hs].
    intros q Hq Hid. now apply (NoDup_ids_same changed).
Qed.

Lemma filter_posts_by_indices_updated_witness :
  exists ci ci',
    heap_jan !! 1%positive = Some ci
    /\ snd (filter_posts_by_indices [post_jan_reedited] 1%positive heap_jan)
         !! fresh (dom heap_jan) = Some ci'
    /\ creator_id ci' = creator_id ci
    /\ creator_service ci' = creator_service ci
    /\ (forall k, (forall q, q ∈ [post_jan_reedited] -> id q <> k) ->
                  posts ci' !! k = posts ci !! k)
    /\ (forall p, p ∈ [post_jan_reedited] ->
                  exists q, posts ci' !! id p = Some q
                            /\ q ∈ [post_jan_reedited] /\ id q = id p)
    /\ (NoDup (map id [post_jan_reedited]) ->
        forall p, p ∈ [post_jan_reedited] -> posts ci' !! id p = Some p).
Proof.
  apply (filter_posts_by_indices_updated [post_jan_reedited] [post_jan_reedited]
           1%positive (fresh (dom heap_jan)) heap_jan).
  vm_compute. reflexivity.
Defined.

(** A returning run never moves a record of the index back in time: an id
    the input index holds is still held afterwards, by the same record or
    by one with a strictly later [edited] time. *)
Theorem filter_posts_by_indices_never_older (posts_arg changed : list Post)
    (indices updated : loc) (h h' : heap) (ci : CreatorIndices)
    (k : string) (stored : Post) :
  filter_posts_by_indices posts_arg indices h = (Ok (changed, updated), h') ->
  h !! indices = Some ci ->
  posts ci !! k = Some stored ->
  exists ci' now,
    h' !! updated = Some ci'
    /\ posts ci' !! k = Some now
    /\ (now = stored
        \/ exists t t', edited stored = Some t /\ edited now = Some t'
                        /\ dt_ltb t t' = true).
Proof.
  intros H Hr Hk. destruct (filter_posts_by_indices_returns _ _ _ _ _ _ H)
    as (ci0 & Hr0 & Hret & Hch & Hu).
  assert (ci0 = ci) as -> by congruence.
  set (Phi := fun q : Post =>
                q = stored
                \/ exists t t', edited stored = Some t /\ edited q = Some t'
                                /\ dt_ltb t t' = true).
  destruct (write_posts_lookup_inv Phi k changed (posts ci)) as (s & Hs & Hphi).
  - intros q Hq Hid. right. subst changed.
    apply list_elem_of_In, List.filter_In in Hq as [Hq Hacc].
    rewrite List.Forall_forall in Hret. specialize (Hret q Hq).
    rewrite Hacc in Hret. unfold edited_after_index in Hret.
    rewrite Hid, Hk in Hret. unfold py_gt_dt in Hret.
    destruct (edited q) as [tq|]; [|discriminate].
    destruct (edited stored) as [ts|]; [|discriminate].
    exists ts, tq. repeat split. rewrite <- dt_gtb_ltb. congruence.
  - exists stored. split; [exact Hk | now left].
  - eexists _, s. split; [exact Hu|]. split; [exact Hs | exact Hphi].
Qed.

Lemma filter_posts_by_indices_never_older_witness :
  exists ci' now,
    snd (filter_posts_by_indices [post_jan_reedited; post_feb] 1%positive heap_jan)
      !! fresh (dom heap_jan) = Some ci'
    /\ posts ci' !! "1" = Some now
    /\ (now = post_jan
        \/ exists t t', edited post_jan = Some t /\ edited now = Some t'
                        /\ dt_ltb t t' = true).
Proof.
  apply (filter_posts_by_indices_never_older [post_jan_reedited; post_feb]
           [post_jan_reedited; post_feb] 1%positive (fresh (dom heap_jan))
           heap_jan _ index_jan "1" post_jan).
  - vm_compute. reflexivity.
  - reflexivity.
  - reflexivity.
Defined.

(** The differ keeps the index well keyed: when every record of the input
    index is stored under its own id, so is every record of the updated
    index. *)
Theorem filter_posts_by_indices_keyed_by_id (posts_arg changed : list Post)
    (indices updated : loc) (h h' : heap) (ci : CreatorIndices) :
  filter_posts_by_indices posts_arg indices h = (Ok (changed, updated), h') ->
  h !! indices = Some ci ->
  keyed_by_id (posts ci) ->
  exists ci', h' !! updated = Some ci' /\ keyed_by_id (posts ci').
Proof.
  intros H Hr Hk. destruct (filter_posts_by_indices_returns _ _ _ _ _ _ H)
    as (ci0 & Hr0 & _ & _ & Hu).
  assert (ci0 = ci) as -> by congruence.
  eexists. split; [exact Hu|]. now apply write_posts_keyed_by_id.
Qed.

Lemma filter_posts_by_indices_keyed_by_id_witness :
  exists ci',
    snd (filter_posts_by_indices [post_jan_reedited; post_feb] 1%positive heap_jan)
      !! fresh (dom heap_jan) = Some ci'
    /\ keyed_by_id (posts ci').
Proof.
  apply (filter_posts_by_indices_keyed_by_id [post_jan_reedited; post_feb]
           [post_jan_reedited; post_feb] 1%positive (fresh (dom heap_jan))
           heap_jan _ index_jan).
  - vm_compute. reflexivity.
  - reflexivity.
  - intros k p. unfold index_jan. cbn [posts].
    destruct (decide (k = "1")) as [->|Hk].
    + rewrite lookup_singleton_eq. now intros [= <-].
    + rewrite lookup_singleton_ne by done. discriminate.
Defined.

(** Posts whose ids the index does not hold are never compared: the run
    returns all of them as changed, in their order, whether or not they
    carry an [edited] time. An empty index is the case of a first run. *)
Theorem filter_posts_by_indices_all_new (posts_arg : list Post)
    (indices : loc) (h : heap) (ci : CreatorIndices) :
  h !! indices = Some ci ->
  (forall p, p ∈ posts_arg -> posts ci !! id p = None) ->
  fst (filter_posts_by_indices posts_arg indices h)
  = Ok (posts_arg, fresh (dom h)).
Proof.
  intros Hr Hnew. rewrite (filter_posts_by_indices_unfold _ _ _ ci Hr).
  rewrite (py_filter_ok _ (fun _ => true)).
  - cbn [fst]. f_equal. f_equal. induction posts_arg as [|x l IH]; [reflexivity|].
    simpl. f_equal. apply IH. intros p Hp. apply Hnew. now right.
  - apply List.Forall_forall. intros p Hp. unfold edited_after_index.
    now rewrite Hnew by now apply list_elem_of_In.
Qed.

Lemma filter_posts_by_indices_all_new_witness :
  fst (filter_posts_by_indices [post_undated; post_jan_unedited] 1%positive heap_empty_index)
  = Ok ([post_undated; post_jan_unedited], fresh (dom heap_empty_index)).
Proof.
  apply (filter_posts_by_indices_all_new [post_undated; post_jan_unedited]
           1%positive heap_empty_index index_empty).
  - reflexivity.
  - intros p _. reflexivity.
Defined.

(** ** More on the canonical hasher *)

Lemma json_digest_shape_witness :
  String.length (sha256_of_text "[1, 2]") = 64%nat
  /\ all_hex (sha256_of_text "[1, 2]") = true.
Proof.
  apply (json_digest_shape (JList [JInt 2; JInt 1]) true).
  vm_compute. reflexivity.
Defined.

Lemma map_result_ext_in {A B : Type} (f g : A -> result B) (l : list A) :
  List.Forall (fun x => f x = g x) l -> map_result f l = map_result g l.
Proof.
  induction 1 as [|x l Hx _ IH]; [reflexivity|].
  cbn [map_result]. now rewrite Hx, IH.
Qed.

Lemma map_result_length {A B : Type} (f : A -> result B) (l : list A) (ys : list B) :
  map_result f l = Ok ys -> length ys = length l.
Proof.
  intros H. apply map_result_Forall2 in H. symmetry. exact (Forall2_length _ _ _ H).
Qed.

(** *** A second call on what the first one left *)

(** What the hasher has put in place of an item stands for itself. *)
Lemma substitute_to_json (p : pjson) : substitute false (to_json p) = Ok p.
Proof.
  induction p as [| b | z | s | l IH] using pjson_nested_ind; try reflexivity.
  cbn [to_json substitute].
  assert (H : map_result (substitute false) (map to_json l) = Ok l).
  { induction IH as [|x l Hx _ IHl]; [reflexivity|].
    cbn [map map_result]. now rewrite Hx, IHl. }
  now rewrite H.
Qed.

Lemma map_result_substitute_to_json (l : list pjson) :
  map_result (substitute false) (map to_json l) = Ok l.
Proof.
  induction l as [|x l IH]; [reflexivity|].
  cbn [map map_result]. now rewrite substitute_to_json, IH.
Qed.

Lemma map_result_substitute_item_to_json (d : list (string * pjson)) :
  map_result (substitute_item false) (map (fun kv => (fst kv, to_json (snd kv))) d) = Ok d.
Proof.
  induction d as [|[k x] d IH]; [reflexivity|].
  cbn [map map_result fst snd]. unfold substitute_item at 1. cbn [fst snd].
  rewrite substitute_to_json, IH. reflexivity.
Qed.

(** The order-sensitive hasher changes its argument at most once. Called
    again on the content the first call has left in the argument, it
    returns the same digest and leaves that content as it is. *)
Theorem json_hash_unsorted_again (v v' : json) (h : string) :
  json_hash v false = Ok (h, v') ->
  json_hash v' false = Ok (h, v').
Proof.
  unfold json_hash. destruct v as [| b | z | s | l | d]; cbn [hash_json].
  1-4: intros H; assert (Hv : v' = _) by (symmetry; exact (f_equal snd (f_equal
         (fun r => match r with Ok x => x | Raise _ => (h, v') end) H)));
       rewrite Hv in *; exact H.
  - unfold hash_list, sort_list.
    destruct (map_result (substitute false) l) as [l'|e]; [|discriminate].
    cbn -[sha256_of_text dumps]. intros H.
    assert (Hv : v' = JList (map to_json l')) by congruence.
    assert (Hh : h = sha256_of_text (dumps (PList l'))) by congruence.
    rewrite Hv, Hh. cbn [hash_json]. unfold hash_list, sort_list.
    rewrite map_result_substitute_to_json. reflexivity.
  - unfold hash_dict.
    destruct (map_result (substitute_item false) d) as [d'|e]; [|discriminate].
    cbn -[sha256_of_text dumps_dict]. intros H.
    assert (Hv : v' = JDict (map (fun kv => (fst kv, to_json (snd kv))) d'))
      by congruence.
    assert (Hh : h = sha256_of_text (dumps_dict d')) by congruence.
    rewrite Hv, Hh. cbn [hash_json]. unfold hash_dict.
    rewrite map_result_substitute_item_to_json. reflexivity.
Qed.

Lemma json_hash_unsorted_again_witness :
  json_hash
    (JDict [("a", JStr "dict-cae1fd1cafc3a224720d8b52c3615332619526ae2526b2cd7afb72a7405ee526")])
    false
  = Ok ("8020ecc7f5ba71214fbea57ae053ea8396d249cd45ada8eab22d0a0070882120",
        JDict [("a", JStr "dict-cae1fd1cafc3a224720d8b52c3615332619526ae2526b2cd7afb72a7405ee526")]).
Proof.
  apply (json_hash_unsorted_again nested_sample).
  vm_compute. reflexivity.
Defined.

(** *** Values the hasher leaves alone *)

Lemma substitute_scalars (sorted_list : bool) (l : list json) :
  forallb json_scalar l = true ->
  exists l', map_result (substitute sorted_list) l = Ok l'
             /\ map to_json l' = l
             /\ List.Forall (fun p => is_scalar p = true) l'.
Proof.
  induction l as [|x l IH]; cbn [forallb].
  - intros _. exists []. repeat split. constructor.
  - intros H. apply andb_true_iff in H as [Hx Hl].
    destruct (IH Hl) as (l' & Hl' & Hback & Hsc).
    cbn [map_result]. rewrite Hl'.
    destruct x as [| b | z | s | y | d]; try discriminate; cbn [substitute].
    + exists (PNull :: l'). cbn [map to_json]. rewrite Hback. repeat split. now constructor.
    + exists (PBool b :: l'). cbn [map to_json]. rewrite Hback. repeat split. now constructor.
    + exists (PInt z :: l'). cbn [map to_json]. rewrite Hback. repeat split. now constructor.
    + exists (PStr s :: l'). cbn [map to_json]. rewrite Hback. repeat split. now constructor.
Qed.

Lemma substitute_item_scalars (sorted_list : bool) (d : list (string * json)) :
  forallb (fun kv => json_scalar (snd kv)) d = true ->
  exists d', map_result (substitute_item sorted_list) d = Ok d'
             /\ map (fun kv => (fst kv, to_json (snd kv))) d' = d.
Proof.
  induction d as [|[k x] d IH]; cbn [forallb snd].
  - intros _. exists []. split; reflexivity.
  - intros H. apply andb_true_iff in H as [Hx Hd].
    destruct (IH Hd) as (d' & Hd' & Hback).
    cbn [map_result]. rewrite Hd'. unfold substitute_item at 1. cbn [fst snd].
    destruct x as [| b | z | s | y | y]; try discriminate; cbn [substitute].
    + exists ((k, PNull) :: d'). cbn [map to_json fst snd]. now rewrite Hback.
    + exists ((k, PBool b) :: d'). cbn [map to_json fst snd]. now rewrite Hback.
    + exists ((k, PInt z) :: d'). cbn [map to_json fst snd]. now rewrite Hback.
    + exists ((k, PStr s) :: d'). cbn [map to_json fst snd]. now rewrite Hback.
Qed.

Lemma py_sorted_scalars (l : list pjson) :
  List.Forall (fun p => is_scalar p = true) l ->
  exists s, py_sorted key_lt l = Ok s.
Proof.
  intros Hsc. unfold py_sorted.
  destruct (sort_into_spec key_lt l (key_lt_strict_total_scalars l Hsc) l [])
    as (s & Hs & _); eauto.
  - intros y Hy. now apply elem_of_nil in Hy.
  - constructor.
Qed.

(** A value that holds no container inside a container is hashed without
    being changed, under either order policy, and hashing it never
    raises: a scalar, a sequence of scalars, a dictionary of scalars. With
    sorting on, the sequence itself keeps its order; only the copy that is
    serialized is sorted. *)
Theorem json_hash_flat_unchanged (v : json) (sorted_list : bool) :
  flat v = true ->
  exists h, json_hash v sorted_list = Ok (h, v).
Proof.
  unfold json_hash. destruct v as [| b | z | s | l | d]; cbn [flat hash_json]; intros H.
  1-4: eexists; reflexivity.
  - destruct (substitute_scalars sorted_list l H) as (l' & Hl' & Hback & Hsc).
    unfold hash_list, sort_list. rewrite Hl'.
    destruct sorted_list; cbn -[sha256_of_text dumps py_sorted].
    + destruct (py_sorted_scalars l' Hsc) as [s Hs]. rewrite Hs.
      cbn -[sha256_of_text dumps]. rewrite Hback. eexists; reflexivity.
    + rewrite Hback. eexists; reflexivity.
  - destruct (substitute_item_scalars sorted_list d H) as (d' & Hd' & Hback).
    unfold hash_dict. rewrite Hd'.
    cbn -[sha256_of_text dumps_dict]. rewrite Hback. eexists; reflexivity.
Qed.

Lemma json_hash_flat_unchanged_witness :
  exists h, json_hash (JList [JInt 3; JStr "b"; JNull; JInt 1]) true
            = Ok (h, JList [JInt 3; JStr "b"; JNull; JInt 1]).
Proof.
  apply (json_hash_flat_unchanged (JList [JInt 3; JStr "b"; JNull; JInt 1]) true).
  reflexivity.
Defined.

(** *** A dictionary and its placeholder *)

(** Inside a container the hasher cannot tell a dictionary from the text
    it puts in its place: a value that holds the dictionary [d] somewhere
    below its top, and the value that holds the string ["dict-"] followed
    by the digest of [d] at the same place, end alike, with the same
    digest when they return. *)
Theorem json_hash_dict_placeholder (sorted_list : bool) (c : position)
    (d : list (string * json)) (h : string) (d' : list (string * pjson)) :
  hash_dict sorted_list d = Ok (h, d') ->
  c <> Here ->
  json_digest (plug c (JDict d)) sorted_list
  = json_digest (plug c (JStr ("dict-" +:+ h))) sorted_list.
Proof.
  intros Hd Hc.
  assert (Hs : substitute sorted_list (JDict d)
               = substitute sorted_list (JStr ("dict-" +:+ h))).
  { rewrite substitute_dict, Hd. reflexivity. }
  destruct c as [|before inner after|before key inner after]; [congruence| |]; cbn [plug].
  - rewrite !json_digest_list.
    change (JList (before ++ plug inner (JDict d) :: after))
      with (plug (InItem before inner after) (JDict d)).
    change (JList (before ++ plug inner (JStr ("dict-" +:+ h)) :: after))
      with (plug (InItem before inner after) (JStr ("dict-" +:+ h))).
    now rewrite (substitute_plug sorted_list (InItem before inner after) _ _ Hs).
  - rewrite !json_digest_dict. unfold substitute_item.
    rewrite (map_result_replace
               (fun kv : string * json => pair (fst kv) <$> substitute sorted_list (snd kv))
               before after (key, plug inner (JDict d))
               (key, plug inner (JStr ("dict-" +:+ h)))); [reflexivity|].
    cbn [fst snd]. now rewrite (substitute_plug sorted_list inner _ _ Hs).
Qed.

Lemma json_hash_dict_placeholder_witness :
  json_digest (JList [JInt 0; JDict [("a", JInt 1)]]) true
  = json_digest (JList [JInt 0; JStr ("dict-" +:+ digest_of_a1)]) true.
Proof.
  apply (json_hash_dict_placeholder true (InItem [JInt 0] Here [])
           [("a", JInt 1)] digest_of_a1 [("a", PInt 1)]).
  - vm_compute. reflexivity.
  - discriminate.
Defined.

(** *** When the order policy plays no part *)

Lemma py_sorted_short {A : Type} (lt : A -> A -> result bool) (l : list A) :
  (length l <= 1)%nat -> py_sorted lt l = Ok l.
Proof.
  destruct l as [|x [|y l]]; simpl; intros H; try reflexivity. lia.
Qed.

Lemma substitute_lists_short (v : json) :
  lists_short v = true -> substitute true v = substitute false v.
Proof.
  induction v as [| b | z | s | l IH | d IH] using json_nested_ind;
    try reflexivity; cbn [lists_short]; intros H.
  - apply andb_true_iff in H as [Hlen Hl]. apply Nat.leb_le in Hlen.
    cbn [substitute].
    assert (Hm : map_result (substitute true) l = map_result (substitute false) l).
    { apply map_result_ext_in. rewrite List.Forall_forall in *.
      rewrite forallb_forall in Hl. auto. }
    rewrite Hm. destruct (map_result (substitute false) l) as [l'|e] eqn:E; [|reflexivity].
    rewrite py_sorted_short; [reflexivity|].
    rewrite (map_result_length _ _ _ E). exact Hlen.
  - cbn [substitute].
    assert (Hm : map_result (fun kv : string * json => pair (fst kv) <$> substitute true (snd kv)) d
                 = map_result (fun kv : string * json => pair (fst kv) <$> substitute false (snd kv)) d).
    { apply map_result_ext_in. rewrite List.Forall_forall in *.
      rewrite forallb_forall in H. intros kv Hkv. now rewrite IH by auto. }
    now rewrite Hm.
Qed.

Lemma json_hash_unsorted_returns (v : json) :
  exists h v', json_hash v false = Ok (h, v').
Proof.
  unfold json_hash. destruct v as [| b | z | s | l | d]; cbn [hash_json]; eauto.
  - destruct (map_result_total (substitute false) l) as [l' Hl'].
    { apply List.Forall_forall. intros x _. apply substitute_unsorted_total. }
    unfold hash_list, sort_list. rewrite Hl'. eauto.
  - destruct (map_result_total (substitute_item false) d) as [d' Hd'].
    { apply List.Forall_forall. intros [k x] _. unfold substitute_item. cbn [fst snd].
      destruct (substitute_unsorted_total x) as [p ->]. simpl. eauto. }
    unfold hash_dict. rewrite Hd'. eauto.
Qed.

(** The order policy plays a part only where a sequence has two items or
    more: for a value none of whose sequences, at any depth, has two
    items, [json_hash] ends alike with and without sorting, in the digest,
    in the content it leaves, and in never raising. *)
Theorem json_hash_policy_irrelevant (v : json) :
  lists_short v = true ->
  json_hash v true = json_hash v false
  /\ exists h v', json_hash v true = Ok (h, v').
Proof.
  intros H.
  assert (Heq : json_hash v true = json_hash v false).
  { unfold json_hash. destruct v as [| b | z | s | l | d]; try reflexivity;
      cbn [hash_json lists_short] in *.
    - apply andb_true_iff in H as [Hlen Hl]. apply Nat.leb_le in Hlen.
      unfold hash_list, sort_list.
      assert (Hm : map_result (substitute true) l = map_result (substitute false) l).
      { apply map_result_ext_in, List.Forall_forall. rewrite forallb_forall in Hl.
        intros x Hx. apply substitute_lists_short. auto. }
      rewrite Hm. destruct (map_result (substitute false) l) as [l'|e] eqn:E; [|reflexivity].
      cbn -[sha256_of_text dumps py_sorted].
      rewrite py_sorted_short; [reflexivity|].
      rewrite (map_result_length _ _ _ E). exact Hlen.
    - unfold hash_dict.
      assert (Hm : map_result (substitute_item true) d = map_result (substitute_item false) d).
      { apply map_result_ext_in, List.Forall_forall. rewrite forallb_forall in H.
        intros kv Hkv. unfold substitute_item. now rewrite substitute_lists_short by auto. }
      now rewrite Hm. }
  split; [exact Heq|]. rewrite Heq.
  destruct (json_hash_unsorted_returns v) as (h & v' & Hv). eauto.
Qed.

Lemma json_hash_policy_irrelevant_witness :
  json_hash (JDict [("tags", JList [JStr "a"]); ("n", JInt 1)]) true
  = json_hash (JDict [("tags", JList [JStr "a"]); ("n", JInt 1)]) false
  /\ exists h v', json_hash (JDict [("tags", JList [JStr "a"]); ("n", JInt 1)]) true
                  = Ok (h, v').
Proof.
  apply (json_hash_policy_irrelevant (JDict [("tags", JList [JStr "a"]); ("n", JInt 1)])).
  reflexivity.
Defined.

(** ** More on the path namer *)

Lemma str_format_malformed `{object_model} (kwargs : list (string * string))
    (template text : string) (e : exn) :
  no_braces text = true ->
  (template = text +:+ "{"
   /\ e = ValueError "Single '{' encountered in format string")
  \/ (template = text +:+ "}"
      /\ e = ValueError "Single '}' encountered in format string")
  \/ (exists rest, template = text +:+ "{}" +:+ rest /\ e = index_out_of_range 0) ->
  str_format template kwargs = Raise e.
Proof.
  intros Ht [[-> ->]|[[-> ->]|(rest & -> & ->)]]; unfold str_format;
    rewrite (format_from_text _ kwargs text _ Ht); reflexivity.
Qed.

(** Of the errors of [format] the namer handles the [KeyError] only. A
    template that ends in a brace without its partner ends the call with
    the [ValueError] of [format], and one that holds the empty field [{}]
    after text without braces ends it with the [IndexError]; in both
    cases nothing is logged and the program is not asked to exit. *)
Theorem generate_post_path_name_malformed_template `{object_model}
    (sanitize_filename : string -> string)
    (job : py_object) (post : Post) (flag : attr_value)
    (template text : string) (e : exn) :
  getattr job "post_id_as_path" = Ok flag ->
  truthy flag = false -> title post <> "" ->
  getattr job "post_dirname_format" = Ok (AStr template) ->
  no_braces text = true ->
  (template = text +:+ "{"
   /\ e = ValueError "Single '{' encountered in format string")
  \/ (template = text +:+ "}"
      /\ e = ValueError "Single '}' encountered in format string")
  \/ (exists rest, template = text +:+ "{}" +:+ rest /\ e = index_out_of_range 0) ->
  generate_post_path_name sanitize_filename job post = ([], Raise e).
Proof.
  intros Hf Hflag Ht Htpl Htext Hshape. unfold generate_post_path_name.
  rewrite Hf, Hflag, (string_eqb_neq _ _ Ht), Htpl,
    (str_format_malformed (post_kwargs post) template text e Htext Hshape).
  destruct Hshape as [[_ ->]|[[_ ->]|(rest & _ & ->)]]; reflexivity.
Qed.

Lemma generate_post_path_name_malformed_template_witness :
  exists e : exn, e = index_out_of_range 0 /\
    forall om : object_model,
      generate_post_path_name (fun s => s) (job_with_naming false "posts/{}-{title}") post_42
      = ([], Raise e).
Proof.
  exists (index_out_of_range 0). split; [reflexivity|]. intros om.
  apply (@generate_post_path_name_malformed_template om (fun s => s)
           (job_with_naming false "posts/{}-{title}") post_42
           (ABool false) "posts/{}-{title}" "posts/").
  - reflexivity.
  - reflexivity.
  - discriminate.
  - reflexivity.
  - reflexivity.
  - right. right. exists "-{title}". split; reflexivity.
Defined.
